(** * neu502b fMRI labs: confound handling and experimental design

    A shallow embedding of the executable cells of the two notebooks

    - [fmri-2-preprocessing.ipynb]: column extraction from the confounds
      table, framewise-displacement censoring;
    - the experimental-design notebook: boxcar regressors of the block
      design, the event-related design, convolution with the HRF.

    numpy arrays of dtype float64 are lists of binary64 floats (Rocq's
    primitive floats, specified by [FloatAxioms]); Python integers are [Z]
    or [nat]; the pandas table is a finite map from column names to
    columns.  Python exceptions are the left summand of a sum type. *)

From Stdlib Require Import ZArith Floats.PrimFloat Floats.SpecFloat Floats.FloatOps
  Floats.FloatAxioms.
From stdpp Require Import base option list sorting gmap strings pretty.

Set Warnings "-inexact-float".
Open Scope Z_scope.
Open Scope nat_scope.

(** ** Python exceptions

    The two exceptions the modelled calls can raise; a call that may raise
    returns [exn + A]. *)

Inductive exn : Type :=
  | KeyError (missing : list string)
  | IndexError.

#[global] Instance exn_bind : MBind (sum exn) :=
  λ A B f m, match m with inl e => inl e | inr a => f a end.

(** ** binary64 comparisons and zeros *)

Module F64.

(** Python's [x > y] on float64: IEEE 754 "greater", false when either side
    is NaN. *)
Definition gt (x y : float) : bool := PrimFloat.ltb y x.



Lemma SFcompare_antisym x y :
  SFcompare y x = CompOpp <$> SFcompare x y.
Proof.
  assert (Hp : ∀ p q, Pos.compare_cont Eq q p = CompOpp (Pos.compare_cont Eq p q))
    by (intros p q; exact (Pos.compare_antisym p q)).
  destruct x as [sx|sx| |sx mx ex], y as [sy|sy| |sy my ey]; simpl;
    try reflexivity;
    try (destruct sx; reflexivity); try (destruct sy; reflexivity);
    try (destruct sx, sy; reflexivity).
  destruct sx, sy; simpl; try reflexivity;
    rewrite (Z.compare_antisym ex ey); destruct (ex ?= ey)%Z; simpl;
    try reflexivity; rewrite Hp; try reflexivity;
    by rewrite CompOpp_involutive.
Qed.

Lemma gt_compare x y : gt x y = true ↔ PrimFloat.compare x y = FGt.
Proof.
  unfold gt. rewrite FloatAxioms.ltb_spec, FloatAxioms.compare_spec. unfold SFltb.
  rewrite (SFcompare_antisym (Prim2SF x) (Prim2SF y)).
  destruct (SFcompare (Prim2SF x) (Prim2SF y)) as [[]|]; simpl; split; congruence.
Qed.

Lemma gt_eqb_false x y : PrimFloat.eqb x y = true → gt x y = false.
Proof.
  unfold gt. rewrite FloatAxioms.ltb_spec, FloatAxioms.eqb_spec. unfold SFltb, SFeqb.
  rewrite (SFcompare_antisym (Prim2SF x) (Prim2SF y)).
  destruct (SFcompare (Prim2SF x) (Prim2SF y)) as [[]|]; simpl; congruence.
Qed.

Lemma gt_irrefl x : gt x x = false.
Proof.
  unfold gt. rewrite FloatAxioms.ltb_spec. unfold SFltb.
  pose proof (SFcompare_antisym (Prim2SF x) (Prim2SF x)) as H.
  destruct (SFcompare (Prim2SF x) (Prim2SF x)) as [[]|]; simpl in *; congruence.
Qed.

Lemma SFcompare_trans_lt x y z :
  SFcompare x y = Some Lt ∨ SFcompare x y = Some Eq →
  SFcompare y z = Some Lt → SFcompare x z = Some Lt.
Proof.
  destruct x as [sx|sx| |sx mx ex], y as [sy|sy| |sy my ey], z as [sz|sz| |sz mz ez];
    simpl; try (intros [?|?] ?; congruence);
    try (destruct sx, sy, sz; intros [?|?] ?; congruence);
    try (destruct sx, sy; intros [?|?] ?; congruence);
    try (destruct sx, sz; intros [?|?] ?; congruence);
    try (destruct sy, sz; intros [?|?] ?; congruence).
  change (Pos.compare_cont Eq mx my) with (Pos.compare mx my).
  change (Pos.compare_cont Eq my mz) with (Pos.compare my mz).
  change (Pos.compare_cont Eq mx mz) with (Pos.compare mx mz).
  destruct sx, sy, sz; try (intros [?|?] ?; congruence);
    destruct (Z.compare_spec ex ey), (Z.compare_spec ey ez), (Z.compare_spec ex ez);
    try lia; simpl; try (intros [?|?] ?; congruence);
    destruct (Pos.compare_spec mx my), (Pos.compare_spec my mz), (Pos.compare_spec mx mz);
    try lia; simpl; intros [?|?] ?; congruence.
Qed.

(** [t1 <= t2] and [d > t2] give [d > t1]. *)
Lemma gt_leb_trans d t1 t2 :
  PrimFloat.leb t1 t2 = true → gt d t2 = true → gt d t1 = true.
Proof.
  unfold gt. rewrite !FloatAxioms.ltb_spec, FloatAxioms.leb_spec.
  unfold SFltb, SFleb. intros Hle Hlt.
  rewrite (SFcompare_trans_lt (Prim2SF t1) (Prim2SF t2) (Prim2SF d)); [done| |].
  - destruct (SFcompare (Prim2SF t1) (Prim2SF t2)) as [[]|]; auto; discriminate.
  - destruct (SFcompare (Prim2SF t2) (Prim2SF d)) as [[]|]; auto; discriminate.
Qed.

Lemma SFcompare_refl x : x ≠ S754_nan → SFcompare x x = Some Eq.
Proof.
  destruct x as [s|s| |s m e]; simpl; intros Hx; try done; try (by destruct s).
  rewrite Z.compare_refl.
  change (Pos.compare_cont Eq m m) with (Pos.compare m m).
  rewrite Pos.compare_refl. by destruct s.
Qed.

(** [d != d] holds of NaN only, and NaN is greater than nothing and nothing
    is greater than NaN. *)
Lemma gt_nan d t :
  PrimFloat.eqb d d = false → gt d t = false ∧ gt t d = false.
Proof.
  rewrite FloatAxioms.eqb_spec. unfold SFeqb. intros Hd.
  assert (Prim2SF d = S754_nan) as Hnan.
  { destruct (Prim2SF d) as [s|s| |s m e] eqn:E; [| |done|];
      rewrite SFcompare_refl in Hd by done; discriminate. }
  unfold gt. rewrite !FloatAxioms.ltb_spec, Hnan. unfold SFltb.
  split; [by destruct (Prim2SF t)|done].
Qed.

Lemma gt_infinity d : gt d infinity = false.
Proof.
  unfold gt. rewrite FloatAxioms.ltb_spec. unfold SFltb.
  change (Prim2SF infinity) with (S754_infinity false).
  by destruct (Prim2SF d) as [|[]| |].
Qed.

End F64.

(** ** Motion censoring (preprocessing notebook, cell 8)

<<
    fd_threshold = 0.2
    fd = df['framewise_displacement'].values
    bad_vols = np.argwhere(fd > fd_threshold).ravel()
    n_bad = bad_vols.shape[0]
>>
*)

Module Censor.

(** [fd > fd_threshold]: numpy broadcasts the scalar threshold and compares
    element by element. *)
Definition censor_mask (fd : list float) (fd_threshold : float) : list bool :=
  (λ d, F64.gt d fd_threshold) <$> fd.

(** [np.argwhere(m).ravel()] on a one-dimensional boolean array: the indices
    of its true entries, in increasing order. *)
Definition argwhere (m : list bool) : list nat :=
  filter (λ i, m !! i = Some true) (seq 0 (length m)).

Definition bad_vols (fd : list float) (fd_threshold : float) : list nat :=
  argwhere (censor_mask fd fd_threshold).

Definition n_bad (fd : list float) (fd_threshold : float) : nat :=
  length (bad_vols fd fd_threshold).

(** The number of flagged samples of a mask. *)
Definition n_true (m : list bool) : nat := length (filter (λ b : bool, b = true) m).

(** Modelled from the spec: the cell stops at the comment
    [# Construct scrubbers]; the notebook's text and the spec (4.2) describe
    a scrubber as a column of zeros with a single 1 at the flagged volume.
    [indicator T i] is that column for a run of [T] volumes. *)
Definition indicator (T i : nat) : list float :=
  (λ r, if decide (r = i) then 1%float else 0%float) <$> seq 0 T.

(** Modelled from the spec: one scrubber per flagged volume, in the order
    in which [bad_vols] lists them. *)
Definition scrubbers (T : nat) (bad : list nat) : list (list float) :=
  indicator T <$> bad.

(** Modelled from the spec: the RegressorSet is kept as the list of its
    columns (what [np.column_stack] takes); emission appends the scrubbers
    of the mask after the columns already there. *)
Definition emit_indicators (regressors : list (list float)) (mask : list bool)
  : list (list float) :=
  regressors ++ scrubbers (length mask) (argwhere mask).

Lemma length_censor_mask fd t : length (censor_mask fd t) = length fd.
Proof. unfold censor_mask. by rewrite length_fmap. Qed.

Lemma lookup_censor_mask fd t i :
  censor_mask fd t !! i = (λ d, F64.gt d t) <$> fd !! i.
Proof. unfold censor_mask. by rewrite list_lookup_fmap. Qed.

Lemma elem_of_argwhere m i : i ∈ argwhere m ↔ m !! i = Some true.
Proof.
  unfold argwhere. rewrite list_elem_of_filter, elem_of_seq. split.
  - by intros [? _].
  - intros H. split; [done|]. apply lookup_lt_Some in H. lia.
Qed.

Lemma filter_ext_elem {A} (P Q : A → Prop)
    `{!∀ x, Decision (P x)} `{!∀ x, Decision (Q x)} (l : list A) :
  (∀ x, x ∈ l → P x ↔ Q x) → filter P l = filter Q l.
Proof.
  induction l as [|a l IH]; intros Hext; [done|].
  rewrite !filter_cons.
  assert (P a ↔ Q a) as Ha by (apply Hext; left).
  rewrite IH by (intros x Hx; apply Hext; by right).
  destruct (decide (P a)), (decide (Q a)); tauto.
Qed.

Lemma argwhere_snoc m b :
  argwhere (m ++ [b]) = argwhere m ++ (if b then [length m] else []).
Proof.
  unfold argwhere. rewrite length_app. simpl.
  replace (length m + 1) with (S (length m)) by lia.
  rewrite seq_S, filter_app. simpl. f_equal.
  - apply filter_ext_elem. intros i Hi. apply elem_of_seq in Hi.
    rewrite lookup_app_l by lia. done.
  - rewrite filter_cons, filter_nil.
    rewrite list_lookup_middle by done.
    destruct b; case_decide; congruence.
Qed.

Lemma argwhere_sorted m : StronglySorted lt (argwhere m).
Proof.
  induction m as [|b m IH] using rev_ind; [constructor|].
  rewrite argwhere_snoc. apply StronglySorted_app. split_and!; [|done|].
  - intros i j Hi Hj. apply elem_of_argwhere, lookup_lt_Some in Hi.
    destruct b; [|by apply elem_of_nil in Hj].
    apply list_elem_of_singleton in Hj. lia.
  - destruct b; repeat constructor.
Qed.

Lemma length_argwhere m : length (argwhere m) = n_true m.
Proof.
  unfold n_true. induction m as [|b m IH] using rev_ind; [done|].
  rewrite argwhere_snoc, filter_app, !length_app, IH. f_equal.
  rewrite filter_cons, filter_nil. destruct b; case_decide; done.
Qed.

Lemma argwhere_nil m : n_true m = 0 → argwhere m = [].
Proof. rewrite <-length_argwhere. apply nil_length_inv. Qed.

Lemma length_indicator T i : length (indicator T i) = T.
Proof. unfold indicator. by rewrite length_fmap, length_seq. Qed.

Lemma lookup_indicator T i r :
  r < T → indicator T i !! r = Some (if decide (r = i) then 1%float else 0%float).
Proof.
  intros Hr. unfold indicator. rewrite list_lookup_fmap, lookup_seq_lt by done.
  done.
Qed.

(** C1: the censor mask has the length of the displacement series, and a
    sample is flagged exactly when its displacement is strictly greater
    than the threshold (IEEE comparison [FGt]); a sample whose displacement
    equals the threshold is not flagged, and [bad_vols] lists exactly the
    flagged indices.  This holds for every threshold, so in particular for
    every positive one. *)
Theorem censor_mask_strict (fd : list float) (t : float) :
  length (censor_mask fd t) = length fd ∧
  ∀ (i : nat) (d : float), fd !! i = Some d →
    censor_mask fd t !! i = Some (F64.gt d t) ∧
    (censor_mask fd t !! i = Some true ↔ PrimFloat.compare d t = FGt) ∧
    (PrimFloat.eqb d t = true → censor_mask fd t !! i = Some false) ∧
    (d = t → censor_mask fd t !! i = Some false) ∧
    (i ∈ bad_vols fd t ↔ PrimFloat.compare d t = FGt).
Proof.
  split; [apply length_censor_mask|].
  intros i d Hd.
  assert (censor_mask fd t !! i = Some (F64.gt d t)) as Hm
    by (by rewrite lookup_censor_mask, Hd).
  assert (censor_mask fd t !! i = Some true ↔ PrimFloat.compare d t = FGt) as Hc.
  { rewrite Hm, <-F64.gt_compare. split; congruence. }
  split_and!; try done.
  - intros He. by rewrite Hm, F64.gt_eqb_false.
  - intros ->. by rewrite Hm, F64.gt_irrefl.
  - unfold bad_vols. by rewrite elem_of_argwhere.
Qed.

Lemma lookup_emit_indicators regressors mask k i :
  argwhere mask !! k = Some i →
  emit_indicators regressors mask !! (length regressors + k)
    = Some (indicator (length mask) i).
Proof.
  intros Hk. unfold emit_indicators, scrubbers.
  rewrite lookup_app_r by lia.
  replace (length regressors + k - length regressors) with k by lia.
  by rewrite list_lookup_fmap, Hk.
Qed.

Lemma float_0_neq_1 : 0%float ≠ 1%float.
Proof.
  intros H. assert (PrimFloat.eqb 0 1 = PrimFloat.eqb 1 1) as He by (by rewrite H).
  vm_compute in He. discriminate.
Qed.

(** C3: emission appends, after the columns already present, exactly one
    column per true mask entry; the flagged indices are taken in ascending
    order and are exactly the true entries; the k-th new column has the
    length of the mask, a 1 at the k-th flagged row and 0 everywhere else
    (and 0 and 1 are different floats); a mask without true entries leaves
    the RegressorSet unchanged.  On the displacement series
    [0.1, 0.3, 0.6, 0.1, 0.9] with threshold 0.5 the flagged volumes are
    2 and 4 and the two columns emitted are their indicators. *)
Theorem emit_indicators_spec (regressors : list (list float)) (mask : list bool) :
  length (emit_indicators regressors mask) = length regressors + n_true mask ∧
  take (length regressors) (emit_indicators regressors mask) = regressors ∧
  StronglySorted lt (argwhere mask) ∧
  (∀ i, i ∈ argwhere mask ↔ mask !! i = Some true) ∧
  (∀ k i, argwhere mask !! k = Some i →
     ∃ col, emit_indicators regressors mask !! (length regressors + k) = Some col ∧
       length col = length mask ∧
       col !! i = Some 1%float ∧
       ∀ r, r < length mask → r ≠ i → col !! r = Some 0%float) ∧
  0%float ≠ 1%float ∧
  (n_true mask = 0 → emit_indicators regressors mask = regressors) ∧
  censor_mask [0.1; 0.3; 0.6; 0.1; 0.9]%float 0.5%float
    = [false; false; true; false; true] ∧
  bad_vols [0.1; 0.3; 0.6; 0.1; 0.9]%float 0.5%float = [2; 4] ∧
  emit_indicators [] (censor_mask [0.1; 0.3; 0.6; 0.1; 0.9]%float 0.5%float)
    = [[0; 0; 1; 0; 0]; [0; 0; 0; 0; 1]]%float.
Proof.
  split_and!.
  - unfold emit_indicators, scrubbers.
    by rewrite length_app, length_fmap, length_argwhere.
  - unfold emit_indicators. apply take_app_length.
  - apply argwhere_sorted.
  - apply elem_of_argwhere.
  - intros k i Hk. exists (indicator (length mask) i).
    assert (i < length mask) as Hi.
    { apply (lookup_lt_Some mask i true), elem_of_argwhere.
      apply list_elem_of_lookup. by exists k. }
    split_and!.
    + by apply lookup_emit_indicators.
    + apply length_indicator.
    + rewrite lookup_indicator by done. by rewrite decide_True.
    + intros r Hr Hne. rewrite lookup_indicator by done. by rewrite decide_False.
  - apply float_0_neq_1.
  - intros H0. unfold emit_indicators. rewrite (argwhere_nil _ H0). simpl.
    apply app_nil_r.
  - vm_compute. reflexivity.
  - vm_compute. reflexivity.
  - vm_compute. reflexivity.
Qed.

Lemma argwhere_all_false m : (∀ i, m !! i ≠ Some true) → argwhere m = [].
Proof.
  intros Hm. apply elem_of_nil_inv. intros i Hi.
  apply elem_of_argwhere in Hi. by apply (Hm i).
Qed.

Lemma NoDup_argwhere m : NoDup (argwhere m).
Proof. unfold argwhere. apply NoDup_filter, NoDup_seq. Qed.

Lemma elem_of_bad_vols fd t i :
  i ∈ bad_vols fd t ↔ ∃ d, fd !! i = Some d ∧ F64.gt d t = true.
Proof.
  unfold bad_vols. rewrite elem_of_argwhere, lookup_censor_mask.
  destruct (fd !! i) as [d|]; simpl; split.
  - intros [= Hd]. by exists d.
  - intros (d' & [= <-] & Hd). by rewrite Hd.
  - done.
  - by intros (d' & ? & _).
Qed.

(** X2: a displacement that is NaN (fMRIPrep writes n/a for the first
    volume) is never flagged, whatever the threshold; and a threshold that
    is NaN or +infinity flags no volume at all. *)
Theorem bad_vols_nan_inf (fd : list float) (t : float) :
  (∀ i d, fd !! i = Some d → PrimFloat.eqb d d = false → i ∉ bad_vols fd t) ∧
  bad_vols fd nan = [] ∧ n_bad fd nan = 0 ∧
  bad_vols fd infinity = [] ∧ n_bad fd infinity = 0.
Proof.
  assert (bad_vols fd nan = []) as Hnan.
  { apply elem_of_nil_inv. intros i Hi.
    apply elem_of_bad_vols in Hi as (d & _ & Hd).
    assert (PrimFloat.eqb nan nan = false) as Hn by reflexivity.
    destruct (F64.gt_nan nan d Hn) as [_ Hgt]. congruence. }
  assert (bad_vols fd infinity = []) as Hinf.
  { apply elem_of_nil_inv. intros i Hi.
    apply elem_of_bad_vols in Hi as (d & _ & Hd).
    rewrite F64.gt_infinity in Hd. discriminate. }
  split_and!; try done.
  - intros i d Hi Hd Hin. apply elem_of_bad_vols in Hin as (d' & Hi' & Hgt).
    rewrite Hi in Hi'. injection Hi' as <-.
    destruct (F64.gt_nan d t Hd) as [Hf _]. congruence.
  - unfold n_bad. by rewrite Hnan.
  - unfold n_bad. by rewrite Hinf.
Qed.

(** X3: the flagged indices are strictly increasing, without repetition
    and valid positions of the series, so [n_bad] is at most its length;
    [n_bad] is zero exactly when no displacement is strictly above the
    threshold. *)
Theorem bad_vols_bounds (fd : list float) (t : float) :
  StronglySorted lt (bad_vols fd t) ∧
  NoDup (bad_vols fd t) ∧
  Forall (λ i, i < length fd) (bad_vols fd t) ∧
  n_bad fd t ≤ length fd ∧
  (n_bad fd t = 0 ↔ ∀ i d, fd !! i = Some d → F64.gt d t = false).
Proof.
  split_and!.
  - apply argwhere_sorted.
  - apply NoDup_argwhere.
  - apply Forall_forall. intros i Hi.
    apply elem_of_bad_vols in Hi as (d & Hd & _). by eapply lookup_lt_Some.
  - unfold n_bad, bad_vols, argwhere.
    etrans; [apply length_filter|]. by rewrite length_seq, length_censor_mask.
  - unfold n_bad. split.
    + intros H0 i d Hd. apply nil_length_inv in H0.
      destruct (F64.gt d t) eqn:Hgt; [|done].
      assert (i ∈ bad_vols fd t) as Hin by (apply elem_of_bad_vols; eauto).
      rewrite H0 in Hin. by apply elem_of_nil in Hin.
    + intros Hall. replace (bad_vols fd t) with (@nil nat); [done|].
      symmetry. apply elem_of_nil_inv. intros i Hi.
      apply elem_of_bad_vols in Hi as (d & Hd & Hgt).
      rewrite (Hall i d Hd) in Hgt. discriminate.
Qed.

(** X4: raising the threshold never flags more: when [t1 <= t2], every
    volume flagged at threshold [t2] is flagged at threshold [t1], and
    [n_bad] does not grow. *)
Theorem bad_vols_threshold_monotone (fd : list float) (t1 t2 : float) :
  PrimFloat.leb t1 t2 = true →
  (∀ i, i ∈ bad_vols fd t2 → i ∈ bad_vols fd t1) ∧
  n_bad fd t2 ≤ n_bad fd t1.
Proof.
  intros Hle.
  assert (∀ i, i ∈ bad_vols fd t2 → i ∈ bad_vols fd t1) as Hsub.
  { intros i. rewrite !elem_of_bad_vols. intros (d & Hd & Hgt).
    exists d. split; [done|]. by apply (F64.gt_leb_trans d t1 t2). }
  split; [done|]. unfold n_bad.
  apply submseteq_length, NoDup_submseteq; [apply NoDup_argwhere|done].
Qed.

Lemma bad_vols_threshold_monotone_witness :
  (∀ i, i ∈ bad_vols [0.1; 0.3; 0.6; 0.1; 0.9]%float 0.5%float →
        i ∈ bad_vols [0.1; 0.3; 0.6; 0.1; 0.9]%float 0.2%float) ∧
  n_bad [0.1; 0.3; 0.6; 0.1; 0.9]%float 0.5%float
    ≤ n_bad [0.1; 0.3; 0.6; 0.1; 0.9]%float 0.2%float.
Proof.
  apply (bad_vols_threshold_monotone [0.1; 0.3; 0.6; 0.1; 0.9]%float 0.2%float 0.5%float).
  reflexivity.
Defined.

End Censor.

(** ** Extraction of confound columns (preprocessing notebook, cells 2 and 9)

<<
    df = read_table(confounds_f, sep='\t')
    hm_labels = ['trans_x', 'trans_y', 'trans_z', 'rot_x', 'rot_y', 'rot_z']
    hm = df[hm_labels].values

    acompcor_n = 5
    acompcor_labels = [f'a_comp_cor_0{n}' for n in range(acompcor_n)]
    acompcor = df.filter(acompcor_labels).values
>>

    [read_table] gives every column its own name, so the table is a finite
    map from names to columns.  The extracted two-dimensional array is kept
    as the list of its columns, in the order of the result. *)

Module Confounds.

Definition hm_labels : list string :=
  ["trans_x"; "trans_y"; "trans_z"; "rot_x"; "rot_y"; "rot_z"]%string.

Definition acompcor_n : nat := 5.

Definition acompcor_labels : list string :=
  (λ n, "a_comp_cor_0" +:+ pretty n) <$> seq 0 acompcor_n.

(** [Index.unique()]: the distinct labels, in the order of their first
    occurrence. *)
Fixpoint unique (labels : list string) : list string :=
  match labels with
  | [] => []
  | l :: labels => l :: filter (λ l', l' ≠ l) (unique labels)
  end.

(** [df[labels].values]: indexing with a list of labels selects those
    columns in the order of the list, and raises [KeyError] as soon as one
    label is not a column.  The payload of [KeyError] is the list of labels
    that its message prints:
<<
    if nmissing:
        if nmissing == len(indexer):
            raise KeyError(f"None of [{key}] are in the [{axis_name}]")
        not_found = list(ensure_index(key)[missing_mask.nonzero()[0]].unique())
        raise KeyError(f"{not_found} not in index")
>>
    *)
Definition getitem (df : gmap string (list float)) (labels : list string)
  : exn + list (list float) :=
  match filter (λ l, ¬ is_Some (df !! l)) labels with
  | [] => inr (omap (λ l, df !! l) labels)
  | missing =>
      if decide (length missing = length labels) then inl (KeyError labels)
      else inl (KeyError (unique missing))
  end.

(** [df.filter(items).values]: [DataFrame.filter(items=...)] keeps the
    requested labels that are columns ([r for r in items if r in labels]),
    in the order of [items], and raises nothing for the others. *)
Definition filter_items (df : gmap string (list float)) (items : list string)
  : list (list float) :=
  omap (λ l, df !! l) items.

Definition hm (df : gmap string (list float)) : exn + list (list float) :=
  getitem df hm_labels.

Definition acompcor (df : gmap string (list float)) : list (list float) :=
  filter_items df acompcor_labels.

(** A confounds table of two volumes in which fMRIPrep wrote only four
    aCompCor components. *)
Definition df_four_components : gmap string (list float) :=
  list_to_map
    [("framewise_displacement", [nan; 0.1])%float;
     ("trans_x", [0; 0.01])%float; ("trans_y", [0; 0.02])%float;
     ("trans_z", [0; 0.03])%float; ("rot_x", [0; 0.001])%float;
     ("rot_y", [0; 0.002])%float; ("rot_z", [0; 0.003])%float;
     ("a_comp_cor_00", [0.5; 0.25])%float; ("a_comp_cor_01", [1; 2])%float;
     ("a_comp_cor_02", [3; 4])%float; ("a_comp_cor_03", [5; 6])%float]%string.

Lemma omap_lookup_all (df : gmap string (list float)) (labels : list string) :
  Forall (λ l, is_Some (df !! l)) labels →
  Forall2 (λ l c, df !! l = Some c) labels (omap (λ l, df !! l) labels).
Proof.
  induction 1 as [|l labels [c Hc] _ IH]; simpl; [constructor|].
  rewrite Hc. by constructor.
Qed.

Lemma filter_missing_nil (df : gmap string (list float)) (labels : list string) :
  filter (λ l, ¬ is_Some (df !! l)) labels = [] ↔
  Forall (λ l, is_Some (df !! l)) labels.
Proof.
  rewrite Forall_forall. split.
  - intros Hnil l Hl. destruct (decide (is_Some (df !! l))) as [|Hn]; [done|].
    assert (l ∈ filter (λ l, ¬ is_Some (df !! l)) labels) as Hin
      by (by apply list_elem_of_filter).
    rewrite Hnil in Hin. by apply elem_of_nil in Hin.
  - intros Hall. apply elem_of_nil_inv. intros l Hl.
    apply list_elem_of_filter in Hl as [Hn Hl]. by apply Hn, Hall.
Qed.

Lemma elem_of_unique (labels : list string) l : l ∈ unique labels ↔ l ∈ labels.
Proof.
  induction labels as [|x labels IH]; simpl; [done|].
  rewrite !elem_of_cons, list_elem_of_filter, IH. split.
  - intros [->|[_ Hl]]; [by left|by right].
  - intros [->|Hl]; [by left|].
    destruct (decide (l = x)) as [->|Hne]; [by left|by right].
Qed.

Lemma NoDup_unique (labels : list string) : NoDup (unique labels).
Proof.
  induction labels as [|x labels IH]; simpl; constructor.
  - rewrite list_elem_of_filter. by intros [? _].
  - by apply NoDup_filter.
Qed.

Lemma unique_sublist (labels : list string) : unique labels `sublist_of` labels.
Proof.
  induction labels as [|x labels IH]; simpl; [done|].
  apply sublist_skip. etrans; [apply sublist_filter|done].
Qed.

Lemma elem_of_filter_missing (df : gmap string (list float)) (labels : list string) l :
  l ∈ filter (λ l, ¬ is_Some (df !! l)) labels ↔ l ∈ labels ∧ df !! l = None.
Proof.
  rewrite list_elem_of_filter, <-eq_None_not_Some. split; intros [? ?]; done.
Qed.

Lemma filter_missing_all (df : gmap string (list float)) (labels : list string) :
  length (filter (λ l, ¬ is_Some (df !! l)) labels) = length labels →
  filter (λ l, ¬ is_Some (df !! l)) labels = labels.
Proof.
  induction labels as [|x labels IH]; [done|].
  rewrite filter_cons. pose proof (length_filter (λ l, ¬ is_Some (df !! l)) labels).
  case_decide; simpl; intros Hlen; [|lia].
  f_equal. apply IH. lia.
Qed.

Lemma getitem_inr (df : gmap string (list float)) (labels : list string) cols :
  getitem df labels = inr cols ↔
  Forall (λ l, is_Some (df !! l)) labels ∧ cols = omap (λ l, df !! l) labels.
Proof.
  unfold getitem. rewrite <-filter_missing_nil.
  destruct (filter _ labels) as [|m ms]; [|case_decide]; split.
  - intros [= <-]. done.
  - intros [_ ->]. done.
  - done.
  - intros [? _]. done.
  - done.
  - intros [? _]. done.
Qed.

Lemma getitem_inl (df : gmap string (list float)) (labels : list string) e :
  getitem df labels = inl e →
  ∃ missing, e = KeyError missing ∧ missing ≠ [] ∧
    (∀ l, l ∈ missing ↔ l ∈ labels ∧ df !! l = None) ∧
    missing `sublist_of` labels ∧
    (Forall (λ l, df !! l = None) labels → missing = labels) ∧
    (Exists (λ l, is_Some (df !! l)) labels → NoDup missing).
Proof.
  unfold getitem.
  pose proof (elem_of_filter_missing df labels) as Hin.
  pose proof (filter_missing_all df labels) as Hall.
  pose proof (sublist_filter (λ l, ¬ is_Some (df !! l)) labels) as Hsub.
  destruct (filter _ labels) as [|m ms] eqn:E; [done|].
  case_decide as Hlen; intros [= <-].
  - specialize (Hall Hlen). rewrite Hall in Hin.
    exists labels. split_and!; [done|by rewrite <-Hall|done|done|done|].
    intros Hex. apply Exists_exists in Hex as (l & Hl & Hs).
    apply Hin in Hl as [_ Hn]. rewrite Hn in Hs. by destruct Hs.
  - exists (unique (m :: ms)). split_and!; [done|done| | | |].
    + intros l. by rewrite elem_of_unique.
    + etrans; [apply unique_sublist|done].
    + intros Hnone. exfalso. apply Hlen. rewrite <-E. f_equal.
      clear -Hnone. induction Hnone as [|x labels Hx _ IH]; [done|].
      rewrite filter_cons, decide_True, IH; [done|].
      rewrite Hx. by intros [? ?].
    + intros _. apply NoDup_unique.
Qed.

(** X1: the indexing path [df[labels].values] succeeds exactly when every
    label is a column, and is then a pure projection (the columns named,
    unchanged, in the order of the list, one for each label, repeated
    labels included); selecting a concatenation of two lists that both
    succeed gives the two results side by side.  Otherwise the only
    exception is [KeyError], and it names the absent labels and no other:
    a label is in the message exactly when it was requested and is not a
    column, the labels are named in the order of the request, the whole
    request when none of its labels is a column and each absent label once
    when some label is a column. *)
Lemma getitem_spec (df : gmap string (list float)) (labels : list string) :
  ((∃ cols, getitem df labels = inr cols) ↔
     Forall (λ l, is_Some (df !! l)) labels) ∧
  (∀ cols, getitem df labels = inr cols →
     Forall2 (λ l c, df !! l = Some c) labels cols) ∧
  (∀ labels' cols cols',
     getitem df labels = inr cols → getitem df labels' = inr cols' →
     getitem df (labels ++ labels') = inr (cols ++ cols')) ∧
  (∀ e, getitem df labels = inl e →
     ∃ missing, e = KeyError missing ∧ missing ≠ [] ∧
       (∀ l, l ∈ missing ↔ l ∈ labels ∧ df !! l = None) ∧
       missing `sublist_of` labels ∧
       (Forall (λ l, df !! l = None) labels → missing = labels) ∧
       (Exists (λ l, is_Some (df !! l)) labels → NoDup missing)).
Proof.
  split_and!.
  - split.
    + intros [cols Hcols]. by apply getitem_inr in Hcols as [? _].
    + intros Hall. exists (omap (λ l, df !! l) labels). by apply getitem_inr.
  - intros cols Hcols. apply getitem_inr in Hcols as [Hall ->].
    by apply omap_lookup_all.
  - intros labels' cols cols' Hc Hc'.
    apply getitem_inr in Hc as [Hall ->]. apply getitem_inr in Hc' as [Hall' ->].
    apply getitem_inr. split; [by apply Forall_app|by rewrite omap_app].
  - apply getitem_inl.
Qed.

(** A request with a repeated absent label, and one with no column at
    all. *)
Example getitem_payload :
  getitem df_four_components ["trans_x"; "zz"; "trans_y"; "yy"; "zz"]%string
    = inl (KeyError ["zz"; "yy"]%string) ∧
  getitem df_four_components ["zz"; "zz"]%string
    = inl (KeyError ["zz"; "zz"]%string) ∧
  getitem df_four_components ["trans_x"; "trans_x"]%string
    = inr [[0; 0.01]; [0; 0.01]]%float ∧
  getitem df_four_components [] = inr [].
Proof. split_and!; vm_compute; reflexivity. Qed.

Lemma length_filter_items_lt (df : gmap string (list float)) (items : list string) l :
  l ∈ items → df !! l = None → length (filter_items df items) < length items.
Proof.
  unfold filter_items. intros Hl Hnone.
  assert (∀ ls : list string, length (omap (λ l, df !! l) ls) ≤ length ls) as Hle.
  { induction ls as [|x ls IH]; [done|].
    change (omap (λ l, df !! l) (x :: ls))
      with (match df !! x with
            | Some c => c :: omap (λ l, df !! l) ls
            | None => omap (λ l, df !! l) ls
            end).
    destruct (df !! x); simpl; lia. }
  induction items as [|x items IH]; [by apply elem_of_nil in Hl|].
  change (omap (λ l, df !! l) (x :: items))
    with (match df !! x with
          | Some c => c :: omap (λ l, df !! l) items
          | None => omap (λ l, df !! l) items
          end).
  apply elem_of_cons in Hl as [->|Hl].
  - rewrite Hnone. specialize (Hle items). simpl. lia.
  - specialize (IH Hl). destruct (df !! x); simpl; lia.
Qed.

(** C5, on a table that lacks [a_comp_cor_04]: the label-indexing path
    (used for the head-motion columns) raises [KeyError] for the missing
    label, but the [df.filter] path used for the aCompCor columns returns
    the four columns that exist and raises nothing. *)
Theorem acompcor_missing_component_silent :
  df_four_components !! "a_comp_cor_04"%string = None ∧
  acompcor_labels =
    ["a_comp_cor_00"; "a_comp_cor_01"; "a_comp_cor_02"; "a_comp_cor_03";
     "a_comp_cor_04"]%string ∧
  acompcor df_four_components = [[0.5; 0.25]; [1; 2]; [3; 4]; [5; 6]]%float ∧
  getitem df_four_components acompcor_labels
    = inl (KeyError ["a_comp_cor_04"%string]) ∧
  hm df_four_components
    = inr [[0; 0.01]; [0; 0.02]; [0; 0.03]; [0; 0.001]; [0; 0.002]; [0; 0.003]]%float.
Proof. split_and!; vm_compute; reflexivity. Qed.

(** X5: for a list of distinct labels, [df.filter(items)] never returns
    more columns than requested and every column it returns is the column
    of a requested label; it returns as many columns as requested exactly
    when [df[items]] succeeds, and then the two extractions give the same
    matrix.  (pandas drops repeated labels in [filter], so the statement is
    about lists without repetition, like the two the notebook uses.) *)
Theorem filter_items_vs_getitem (df : gmap string (list float)) (items : list string) :
  NoDup items →
  length (filter_items df items) ≤ length items ∧
  (∀ c, c ∈ filter_items df items → ∃ l, l ∈ items ∧ df !! l = Some c) ∧
  (length (filter_items df items) = length items ↔
     ∃ cols, getitem df items = inr cols) ∧
  (∀ cols, getitem df items = inr cols → filter_items df items = cols).
Proof.
  intros _.
  assert (Forall (λ l, is_Some (df !! l)) items →
          length (filter_items df items) = length items) as Hall.
  { intros Hs. symmetry. unfold filter_items.
    apply (Forall2_length _ _ _ (omap_lookup_all df items Hs)). }
  assert (length (filter_items df items) = length items →
          Forall (λ l, is_Some (df !! l)) items) as Hlen.
  { intros Heq. apply Forall_forall. intros l Hl.
    destruct (df !! l) as [c|] eqn:Hc; [by exists c|].
    pose proof (length_filter_items_lt df items l Hl Hc). lia. }
  split_and!.
  - destruct (decide (Forall (λ l, is_Some (df !! l)) items)) as [Hs|Hs].
    + by rewrite Hall.
    + apply not_Forall_Exists in Hs; [|apply _].
      apply Exists_exists in Hs as (l & Hl & Hn). simpl in Hn.
      assert (df !! l = None) as Hc by (destruct (df !! l); [by destruct Hn|done]).
      pose proof (length_filter_items_lt df items l Hl Hc). lia.
  - intros c. unfold filter_items. by rewrite list_elem_of_omap.
  - split.
    + intros Heq. exists (omap (λ l, df !! l) items). apply getitem_inr. auto.
    + intros (cols & Hcols). apply getitem_inr in Hcols as [Hs _]. auto.
  - intros cols Hcols. by apply getitem_inr in Hcols as [_ ->].
Qed.

Lemma filter_items_vs_getitem_witness :
  length (filter_items df_four_components hm_labels) ≤ length hm_labels ∧
  (∀ c, c ∈ filter_items df_four_components hm_labels →
        ∃ l, l ∈ hm_labels ∧ df_four_components !! l = Some c) ∧
  (length (filter_items df_four_components hm_labels) = length hm_labels ↔
     ∃ cols, getitem df_four_components hm_labels = inr cols) ∧
  (∀ cols, getitem df_four_components hm_labels = inr cols →
           filter_items df_four_components hm_labels = cols).
Proof.
  apply (filter_items_vs_getitem df_four_components hm_labels).
  compute_done.
Defined.

End Confounds.

(** ** Convolution with the HRF (design notebook, cells 6, 10, 15, 17)

    The four cells are comments left to the student ("Convolve impulses with
    HRF and plot", ...), under the instruction to use [np.convolve] on the
    event series and the HRF.  Sample [n] of a full discrete convolution is
    the sum of [events[m] * kernel[n - m]] over the indices [m] at which
    both sequences are defined. *)

Module Convolution.

(** Sample [n]: the products [a[m] * v[n - m]] accumulated from [0.0] for
    [m = 0, ..., n], skipping the [m] at which a sequence is not defined. *)
Definition dot_window (a v : list float) (n : nat) : float :=
  foldl (λ acc m,
           match a !! m, v !! (n - m) with
           | Some x, Some y => (acc + x * y)%float
           | _, _ => acc
           end)
        0%float (seq 0 (S n)).

(** The samples [0, ..., len(a) + len(v) - 2]. *)
Definition full (a v : list float) : list float :=
  dot_window a v <$> seq 0 (length a + length v - 1).

(** Modelled from the spec: no cell calls the convolution (cells 6, 10, 15
    and 17 are comments for the student to fill in).  Specification 4.4:
    the "full discrete convolution of events with kernel, producing a
    sequence of length len(events) + len(kernel) - 1", a pure function that
    is "never an error"; the samples are binary64 numbers. *)
Definition convolve (events kernel : list float) : list float :=
  full events kernel.











(** The scenario of the specification: two impulses and a three-sample
    kernel; each impulse is replaced by a copy of the kernel.  A kernel
    longer than the event series, and an impulse of height [2]. *)
Example convolve_impulses :
  convolve [0; 0; 1; 0; 0; 0; 1; 0; 0; 0]%float [1; 0.5; 0.25]%float
    = [0; 0; 1; 0.5; 0.25; 0; 1; 0.5; 0.25; 0; 0; 0]%float ∧
  convolve [1; 0.5; 0.25]%float [0; 0; 1; 0; 0; 0; 1; 0; 0; 0]%float
    = [0; 0; 1; 0.5; 0.25; 0; 1; 0.5; 0.25; 0; 0; 0]%float ∧
  convolve [0; 2; 1]%float [1; 0.5; 0.25]%float = [0; 2; 2; 1; 0.25]%float ∧
  convolve [] [1; 0.5; 0.25]%float = [0; 0]%float ∧
  convolve [0; 0; 0]%float [] = [0; 0]%float ∧
  convolve [] [] = [].
Proof. split_and!; vm_compute; reflexivity. Qed.



End Convolution.

(** ** Experimental designs (design notebook, cells 2, 7, 8, 12, 13)

<<
    duration = 320
    tr = 2
    n_trs = duration // tr

    stim_duration = 15
    face_onsets = [10, 60, 110]
    house_onsets = [35, 85, 135]

    face_blocks = np.zeros(n_trs)
    for onset in face_onsets:
        face_blocks[onset:onset + stim_duration] = 1
>>
*)

Module Design.

Definition duration : nat := 320.
Definition tr : nat := 2.
Definition n_trs : nat := duration `div` tr.

Definition stim_duration : Z := 15.
Definition face_onsets : list Z := [10; 60; 110]%Z.
Definition house_onsets : list Z := [35; 85; 135]%Z.

(** A bound of a Python slice with step 1 on a sequence of [len] items
    ([slice.indices]): a negative bound counts from the end, and the result
    is clipped to [0, len]. *)
Definition slice_bound (len : nat) (i : Z) : nat :=
  if decide (i < 0)%Z then Z.to_nat (i + Z.of_nat len) else Z.to_nat i `min` len.

(** [x[start:stop] = val] on a one-dimensional array: the items at the
    positions of the clipped slice are overwritten; an empty slice changes
    nothing, and nothing is raised. *)
Definition slice_assign (x : list float) (start stop : Z) (val : float) : list float :=
  imap (λ i old,
          if decide (slice_bound (length x) start ≤ i < slice_bound (length x) stop)
          then val else old) x.

(** The loop of cell 8 over an array of [n_trs] zeros. *)
Definition boxcar (n_trs : nat) (onsets : list Z) (stim_duration : Z) : list float :=
  foldl (λ blocks onset, slice_assign blocks onset (onset + stim_duration) 1%float)
        (replicate n_trs 0%float) onsets.

(** The number of entries of a series that equal [1.0]. *)
Definition n_ones (z : list float) : nat :=
  length (filter (λ x, PrimFloat.eqb x 1%float = true) z).

Definition face_blocks : list float := boxcar n_trs face_onsets stim_duration.
Definition house_blocks : list float := boxcar n_trs house_onsets stim_duration.

Lemma length_slice_assign x start stop val :
  length (slice_assign x start stop val) = length x.
Proof. unfold slice_assign. apply length_imap. Qed.

Lemma lookup_slice_assign x start stop val (i : nat) :
  (0 ≤ start)%Z → (0 ≤ stop)%Z →
  slice_assign x start stop val !! i =
    (λ old, if decide (start ≤ Z.of_nat i < stop)%Z then val else old) <$> x !! i.
Proof.
  intros Hs He. unfold slice_assign. rewrite list_lookup_imap.
  destruct (x !! i) as [old|] eqn:Hx; [|done]. simpl. f_equal.
  apply lookup_lt_Some in Hx.
  unfold slice_bound.
  rewrite (decide_False (P := (start < 0)%Z)), (decide_False (P := (stop < 0)%Z)) by lia.
  destruct (decide (start ≤ Z.of_nat i < stop)%Z); [rewrite decide_True|rewrite decide_False];
    (done || lia).
Qed.

Lemma length_foldl_slice_assign (onsets : list Z) (d : Z) (b : list float) :
  length (foldl (λ blocks onset, slice_assign blocks onset (onset + d) 1%float) b onsets)
    = length b.
Proof.
  revert b. induction onsets as [|o onsets IH]; intros b; simpl; [done|].
  by rewrite IH, length_slice_assign.
Qed.

Lemma lookup_foldl_slice_assign (onsets : list Z) (d : Z) (b : list float) (i : nat) :
  Forall (λ o, 0 ≤ o)%Z onsets → (0 ≤ d)%Z →
  foldl (λ blocks onset, slice_assign blocks onset (onset + d) 1%float) b onsets !! i
    = (λ old, if decide (Exists (λ o, o ≤ Z.of_nat i < o + d)%Z onsets) then 1%float else old)
        <$> b !! i.
Proof.
  intros Honsets Hd. revert b.
  induction Honsets as [|o onsets Ho _ IH]; intros b; simpl.
  - by destruct (b !! i).
  - rewrite IH, lookup_slice_assign by lia.
    destruct (b !! i) as [old|]; [simpl|done]. f_equal.
    destruct (decide (Exists _ onsets)) as [Hex|Hex].
    + rewrite decide_True by (by right). done.
    + destruct (decide (o ≤ Z.of_nat i < o + d)%Z) as [Hin|Hin].
      * rewrite decide_True by (by left). done.
      * rewrite decide_False; [done|]. rewrite Exists_cons. tauto.
Qed.

(** C10: for non-negative onsets and a non-negative stimulus duration the
    boxcar loop (a total function: slice assignment has no error case)
    returns a vector of [n_trs] entries, each 0 or 1; entry [i] is 1 exactly
    when some block [onset, onset + stim_duration) contains [i], so a block
    that runs past the end of the series is cut off at the end. *)
Theorem boxcar_total (n : nat) (onsets : list Z) (d : Z) :
  Forall (λ o, 0 ≤ o)%Z onsets → (0 ≤ d)%Z →
  length (boxcar n onsets d) = n ∧
  Forall (λ x, x = 0%float ∨ x = 1%float) (boxcar n onsets d) ∧
  ∀ i : nat, i < n →
    boxcar n onsets d !! i =
      Some (if decide (Exists (λ o, o ≤ Z.of_nat i < o + d)%Z onsets) then 1%float else 0%float).
Proof.
  intros Honsets Hd.
  assert (∀ i : nat, i < n →
    boxcar n onsets d !! i =
      Some (if decide (Exists (λ o, o ≤ Z.of_nat i < o + d)%Z onsets) then 1%float else 0%float))
    as Hlookup.
  { intros i Hi. unfold boxcar. rewrite lookup_foldl_slice_assign by done.
    by rewrite lookup_replicate_2. }
  assert (length (boxcar n onsets d) = n) as Hlen.
  { unfold boxcar. by rewrite length_foldl_slice_assign, length_replicate. }
  split_and!; [done| |done].
  apply Forall_lookup. intros i x Hx.
  assert (i < n) as Hi by (rewrite <-Hlen; by eapply lookup_lt_Some).
  rewrite (Hlookup i Hi) in Hx. injection Hx as <-.
  case_decide; auto.
Qed.

Example boxcar_cut_at_end :
  boxcar 6 [4]%Z 5 = [0; 0; 0; 0; 1; 1]%float ∧
  boxcar 6 [1; 9]%Z 2 = [0; 1; 1; 0; 0; 0]%float ∧
  n_trs = 160 ∧
  length face_blocks = 160 ∧ length house_blocks = 160.
Proof. split_and!; vm_compute; reflexivity. Qed.

Lemma boxcar_total_witness :
  length (boxcar 160 [10; 60; 150]%Z 15) = 160 ∧
  Forall (λ x, x = 0%float ∨ x = 1%float) (boxcar 160 [10; 60; 150]%Z 15) ∧
  ∀ i : nat, i < 160 →
    boxcar 160 [10; 60; 150]%Z 15 !! i =
      Some (if decide (Exists (λ o, o ≤ Z.of_nat i < o + 15)%Z [10; 60; 150]%Z)
            then 1%float else 0%float).
Proof.
  apply (boxcar_total 160 [10; 60; 150]%Z 15).
  - repeat constructor; lia.
  - lia.
Defined.

Lemma n_ones_fmap (f : nat → float) (l : list nat) :
  n_ones (f <$> l) = length (filter (λ j, PrimFloat.eqb (f j) 1%float = true) l).
Proof.
  unfold n_ones. induction l as [|j l IH]; [done|].
  rewrite fmap_cons, !filter_cons.
  destruct (decide (PrimFloat.eqb (f j) 1 = true)); simpl; by rewrite IH.
Qed.

Lemma lookup_foldl_slice_assign_any (onsets : list Z) (d : Z) (b : list float) (i : nat) :
  foldl (λ blocks onset, slice_assign blocks onset (onset + d) 1%float) b onsets !! i
    = (λ old,
         if decide (Exists (λ o, slice_bound (length b) o ≤ i
                                 < slice_bound (length b) (o + d)) onsets)
         then 1%float else old) <$> b !! i.
Proof.
  revert b. induction onsets as [|o onsets IH]; intros b; simpl.
  - by destruct (b !! i).
  - rewrite IH, length_slice_assign. unfold slice_assign at 1.
    rewrite list_lookup_imap. destruct (b !! i) as [old|]; [simpl|done]. f_equal.
    destruct (decide (Exists _ onsets)) as [Hex|Hex].
    + by rewrite decide_True by (by right).
    + destruct (decide (slice_bound (length b) o ≤ i < slice_bound (length b) (o + d)))
        as [Hin|Hin].
      * by rewrite decide_True by (by left).
      * rewrite decide_False; [done|]. rewrite Exists_cons. tauto.
Qed.

Lemma lookup_boxcar_any (n : nat) (onsets : list Z) (d : Z) (i : nat) :
  i < n →
  boxcar n onsets d !! i
    = Some (if decide (Exists (λ o, slice_bound n o ≤ i < slice_bound n (o + d)) onsets)
            then 1%float else 0%float).
Proof.
  intros Hi. unfold boxcar.
  rewrite lookup_foldl_slice_assign_any, length_replicate.
  by rewrite lookup_replicate_2.
Qed.

Lemma length_boxcar n onsets d : length (boxcar n onsets d) = n.
Proof. unfold boxcar. by rewrite length_foldl_slice_assign, length_replicate. Qed.

Lemma boxcar_ext (n : nat) (os1 os2 : list Z) (d : Z) :
  (∀ i : nat,
     Exists (λ o, slice_bound n o ≤ i < slice_bound n (o + d)) os1 ↔
     Exists (λ o, slice_bound n o ≤ i < slice_bound n (o + d)) os2) →
  boxcar n os1 d = boxcar n os2 d.
Proof.
  intros Hiff. apply list_eq. intros i.
  destruct (decide (i < n)) as [Hi|Hi].
  - rewrite !lookup_boxcar_any by done. f_equal.
    specialize (Hiff i).
    destruct (decide (Exists _ os1)), (decide (Exists _ os2)); tauto.
  - rewrite !(proj2 (lookup_ge_None _ _)); [done|rewrite length_boxcar; lia..].
Qed.

(** X11: for arbitrary integer onsets and duration (negative ones
    included) the boxcar has [n_trs] entries, each 0 or 1; it does not
    depend on the order of the onsets nor on repeated onsets, and the boxcar
    of two onset lists put together is 1 exactly where one of the two
    boxcars is 1. *)
Theorem boxcar_any_onsets (n : nat) (os1 os2 : list Z) (d : Z) :
  length (boxcar n os1 d) = n ∧
  Forall (λ x, x = 0%float ∨ x = 1%float) (boxcar n os1 d) ∧
  (os1 ≡ₚ os2 → boxcar n os1 d = boxcar n os2 d) ∧
  boxcar n (os1 ++ os1) d = boxcar n os1 d ∧
  (∀ i, boxcar n (os1 ++ os2) d !! i = Some 1%float ↔
        boxcar n os1 d !! i = Some 1%float ∨ boxcar n os2 d !! i = Some 1%float).
Proof.
  split_and!.
  - apply length_boxcar.
  - apply Forall_lookup. intros i x Hx.
    assert (i < n) as Hi by (rewrite <-(length_boxcar n os1 d); by eapply lookup_lt_Some).
    rewrite (lookup_boxcar_any n os1 d i Hi) in Hx. apply (inj Some) in Hx as <-.
    case_decide; auto.
  - intros Hperm. apply boxcar_ext. intros i. by rewrite Hperm.
  - apply boxcar_ext. intros i. rewrite Exists_app. tauto.
  - intros i. destruct (decide (i < n)) as [Hi|Hi].
    + rewrite !lookup_boxcar_any by done.
      assert (Some 0%float ≠ Some 1%float) as H01.
      { intros H. apply (inj Some) in H. by apply Censor.float_0_neq_1. }
      destruct (decide (Exists _ (os1 ++ os2))) as [Hex|Hex];
        rewrite Exists_app in Hex;
        destruct (decide (Exists _ os1)), (decide (Exists _ os2)); tauto.
    + rewrite !(proj2 (lookup_ge_None _ _)); [|rewrite length_boxcar; lia..].
      split; [done|intros [?|?]; done].
Qed.

Lemma count_blocks (n : nat) (onsets : list Z) (d : Z) :
  (0 ≤ d)%Z →
  Forall (λ o, 0 ≤ o ∧ o + d ≤ Z.of_nat n)%Z onsets →
  StronglySorted (λ a b, a + d ≤ b)%Z onsets →
  length (filter (λ i : nat, Exists (λ o, o ≤ Z.of_nat i < o + d)%Z onsets) (seq 0 n))
    = length onsets * Z.to_nat d.
Proof.
  intros Hd Hin Hs. induction Hs as [|o os Hs IH Ho].
  - replace (filter _ (seq 0 n)) with (@nil nat); [done|].
    symmetry. apply elem_of_nil_inv. intros i Hi.
    apply list_elem_of_filter in Hi as [Hi _]. by apply Exists_nil in Hi.
  - apply Forall_cons in Hin as [[Ho0 Hon] Hin].
    trans (length (seq (Z.to_nat o) (Z.to_nat d) ++
                   filter (λ i : nat, Exists (λ o, o ≤ Z.of_nat i < o + d)%Z os) (seq 0 n)));
      [|rewrite length_app, length_seq, (IH Hin); simpl; lia].
    apply Permutation_length, NoDup_Permutation.
    + apply NoDup_filter, NoDup_seq.
    + apply NoDup_app. split_and!; [apply NoDup_seq| |apply NoDup_filter, NoDup_seq].
      intros i Hi Hi'. apply elem_of_seq in Hi.
      apply list_elem_of_filter in Hi' as [Hex _].
      apply Exists_exists in Hex as (o' & Ho' & Hio').
      rewrite Forall_forall in Ho. specialize (Ho o' Ho'). lia.
    + intros i. rewrite elem_of_app, !list_elem_of_filter, !elem_of_seq, Exists_cons.
      split.
      * intros [[Hi|Hi] Hlt]; [left; lia|right; done].
      * intros [Hi|[Hi Hlt]]; [split; [left|]; lia|split; [by right|done]].
Qed.

(** X12: when the blocks start at non-negative onsets, end within the
    run, and each starts no earlier than the previous one ends, the boxcar
    has exactly [len(onsets) * stim_duration] ones. *)
Theorem boxcar_count (n : nat) (onsets : list Z) (d : Z) :
  (0 ≤ d)%Z →
  Forall (λ o, 0 ≤ o ∧ o + d ≤ Z.of_nat n)%Z onsets →
  StronglySorted (λ a b, a + d ≤ b)%Z onsets →
  n_ones (boxcar n onsets d) = length onsets * Z.to_nat d.
Proof.
  intros Hd Hin Hs.
  assert (Forall (λ o, 0 ≤ o)%Z onsets) as H0.
  { eapply Forall_impl; [exact Hin|]. by intros o [? _]. }
  assert (boxcar n onsets d
          = (λ i : nat, if decide (Exists (λ o, o ≤ Z.of_nat i < o + d)%Z onsets)
                        then 1%float else 0%float) <$> seq 0 n) as ->.
  { apply list_eq. intros i. rewrite list_lookup_fmap.
    destruct (decide (i < n)) as [Hi|Hi].
    - rewrite lookup_seq_lt by done. unfold boxcar.
      rewrite lookup_foldl_slice_assign by done. by rewrite lookup_replicate_2.
    - rewrite lookup_seq_ge by lia. apply lookup_ge_None. rewrite length_boxcar. lia. }
  rewrite n_ones_fmap, <-(count_blocks n onsets d Hd Hin Hs). f_equal.
  apply list_filter_iff. intros i. destruct (decide (Exists _ onsets)); split; done.
Qed.

Lemma boxcar_count_witness :
  n_ones (boxcar 160 [10; 60; 110]%Z 15) = 3 * Z.to_nat 15.
Proof.
  apply (boxcar_count 160 [10; 60; 110]%Z 15).
  - lia.
  - repeat constructor; lia.
  - repeat constructor; lia.
Defined.

End Design.

(** ** Event-related design (design notebook, cells 12 and 13)

<<
    np.random.seed(420)
    n_events = 40
    onsets = np.cumsum(tr + np.random.geometric(.5, n_events))
    face_ids = np.sort(np.random.choice(np.arange(n_events),
                                        size=n_events // 2, replace=False))
    house_ids = np.array([i for i in np.arange(n_events) if i not in face_ids])
    face_onsets = onsets[face_ids]
    house_onsets = onsets[house_ids]

    face_events = np.zeros(n_trs)
    face_events[face_onsets] = 1
    house_events = np.zeros(n_trs)
    house_events[house_onsets] = 1
>>

    The two random draws are arguments of the model: [geometric] is the
    array returned by [np.random.geometric(.5, n_events)] and [choice] the
    one returned by [np.random.choice(..., replace=False)]. *)

Module EventDesign.

Definition n_events : nat := 40.

Fixpoint cumsum_from (acc : nat) (l : list nat) : list nat :=
  match l with
  | [] => []
  | x :: l => (acc + x) :: cumsum_from (acc + x) l
  end.

(** [np.cumsum] *)
Definition cumsum (l : list nat) : list nat := cumsum_from 0 l.

Definition onsets (geometric : list nat) : list nat :=
  cumsum ((λ g, Design.tr + g) <$> geometric).

(** [np.sort] of the sample drawn without replacement. *)
Definition face_ids (choice : list nat) : list nat := merge_sort (≤) choice.

Definition house_ids (choice : list nat) : list nat :=
  filter (λ i, i ∉ face_ids choice) (seq 0 n_events).

(** [x[ids]] with an integer array [ids] of non-negative indices:
    [IndexError] when an index is out of bounds. *)
Definition take_indices (x : list nat) (ids : list nat) : exn + list nat :=
  match mapM (λ i, x !! i) ids with
  | Some r => inr r
  | None => inl IndexError
  end.

(** [z = np.zeros(n); z[ids] = 1] with an integer array [ids] of
    non-negative indices: [IndexError] when an index is out of bounds. *)
Definition put_ones (n : nat) (ids : list nat) : exn + list float :=
  if decide (Forall (λ i, i < n) ids)
  then inr (foldr (λ i z, <[i:=1%float]> z) (replicate n 0%float) ids)
  else inl IndexError.

Definition face_onsets (geometric choice : list nat) : exn + list nat :=
  take_indices (onsets geometric) (face_ids choice).

Definition house_onsets (geometric choice : list nat) : exn + list nat :=
  take_indices (onsets geometric) (house_ids choice).

Definition face_events (geometric choice : list nat) : exn + list float :=
  ids ← face_onsets geometric choice; put_ones Design.n_trs ids.

Definition house_events (geometric choice : list nat) : exn + list float :=
  ids ← house_onsets geometric choice; put_ones Design.n_trs ids.

(** [face_events + house_events], element by element. *)
Definition add_arrays (x y : list float) : list float := zip_with PrimFloat.add x y.

(** A run of the cell: forty geometric draws and twenty distinct indices.
    The values are those that the Mersenne Twister seeded with 420 yields
    under numpy's legacy samplers (one uniform double per geometric draw;
    [choice] as the first twenty entries of a shuffled [arange(40)]). *)
Definition sample_geometric : list nat :=
  [1; 1; 1; 1; 3; 2; 1; 1; 2; 2; 1; 1; 1; 1; 3; 1; 1; 1; 3; 3;
   3; 1; 3; 1; 1; 2; 1; 1; 1; 1; 1; 2; 5; 2; 2; 2; 5; 1; 1; 1].

Definition sample_choice : list nat :=
  [12; 24; 14; 23; 30; 31; 1; 2; 19; 21; 36; 25; 17; 7; 37; 29; 0; 13; 18; 35].

Lemma length_cumsum_from acc l : length (cumsum_from acc l) = length l.
Proof. revert acc. induction l as [|x l IH]; intros acc; simpl; [done|]. by rewrite IH. Qed.

Lemma cumsum_from_gt acc l k y :
  Forall (λ x, 0 < x) l → cumsum_from acc l !! k = Some y → acc < y.
Proof.
  intros Hpos. revert acc k.
  induction Hpos as [|x l Hx _ IH]; intros acc k Hk; [done|].
  destruct k as [|k]; simpl in Hk.
  - injection Hk as <-. lia.
  - apply IH in Hk. lia.
Qed.

Lemma cumsum_from_increasing acc l j k x y :
  Forall (λ x, 0 < x) l → j < k →
  cumsum_from acc l !! j = Some x → cumsum_from acc l !! k = Some y → x < y.
Proof.
  intros Hpos. revert acc j k.
  induction Hpos as [|a l Ha Hl IH]; intros acc j k Hjk Hj Hk; [done|].
  destruct k as [|k]; [lia|]. destruct j as [|j]; simpl in Hj, Hk.
  - injection Hj as <-. by eapply cumsum_from_gt.
  - eapply (IH _ j k); [lia|done..].
Qed.

Lemma onsets_inj geometric j k o :
  onsets geometric !! j = Some o → onsets geometric !! k = Some o → j = k.
Proof.
  unfold onsets, cumsum. intros Hj Hk.
  assert (Forall (λ x, 0 < x) ((λ g, Design.tr + g) <$> geometric)) as Hpos.
  { apply Forall_fmap, Forall_forall. intros g _. simpl. unfold Design.tr. lia. }
  destruct (Nat.lt_trichotomy j k) as [Hlt|[->|Hlt]]; [|done|].
  - pose proof (cumsum_from_increasing _ _ _ _ _ _ Hpos Hlt Hj Hk). lia.
  - pose proof (cumsum_from_increasing _ _ _ _ _ _ Hpos Hlt Hk Hj). lia.
Qed.

Lemma length_onsets geometric : length (onsets geometric) = length geometric.
Proof. unfold onsets, cumsum. by rewrite length_cumsum_from, length_fmap. Qed.

Lemma elem_of_face_ids choice i : i ∈ face_ids choice ↔ i ∈ choice.
Proof. unfold face_ids. by rewrite merge_sort_Permutation. Qed.

Lemma elem_of_house_ids choice i :
  i ∈ house_ids choice ↔ i < n_events ∧ i ∉ face_ids choice.
Proof.
  unfold house_ids. rewrite list_elem_of_filter, elem_of_seq. split.
  - intros [? [_ ?]]. split; [lia|done].
  - intros [? ?]. split; [done|lia].
Qed.

Lemma length_house_ids choice :
  NoDup choice → Forall (λ i, i < n_events) choice →
  length (house_ids choice) = n_events - length choice.
Proof.
  intros Hnd Hlt.
  pose proof (filter_app_complement (λ i, i ∈ face_ids choice) (seq 0 n_events)) as Hp.
  apply Permutation_length in Hp. rewrite length_app, length_seq in Hp.
  assert (filter (λ i, i ∈ face_ids choice) (seq 0 n_events) ≡ₚ choice) as Hf.
  { apply NoDup_Permutation; [apply NoDup_filter, NoDup_seq|done|].
    intros i. rewrite list_elem_of_filter, elem_of_seq, elem_of_face_ids. split.
    - by intros [? _].
    - intros Hi. split; [done|]. rewrite Forall_forall in Hlt.
      specialize (Hlt i Hi). lia. }
  apply Permutation_length in Hf. unfold house_ids. lia.
Qed.

Lemma take_indices_ok (x ids : list nat) :
  Forall (λ i, i < length x) ids →
  ∃ r, take_indices x ids = inr r ∧ Forall2 (λ i o, x !! i = Some o) ids r.
Proof.
  intros Hlt. unfold take_indices.
  destruct (mapM (λ i, x !! i) ids) as [r|] eqn:Hm.
  - exists r. split; [done|]. by apply mapM_Some_1.
  - exfalso. assert (is_Some (mapM (λ i, x !! i) ids)) as [r Hr]; [|congruence].
    apply mapM_is_Some_2. eapply Forall_impl; [exact Hlt|].
    intros i Hi. simpl. by apply lookup_lt_is_Some.
Qed.

Lemma put_ones_ok (n : nat) (ids : list nat) :
  Forall (λ i, i < n) ids →
  ∃ z, put_ones n ids = inr z ∧ length z = n ∧
    ∀ o, o < n → z !! o = Some (if decide (o ∈ ids) then 1%float else 0%float).
Proof.
  intros Hlt. unfold put_ones. rewrite decide_True by done.
  eexists. split; [done|]. clear Hlt.
  induction ids as [|i ids [IHlen IH]]; cbn [foldr].
  - split; [by rewrite length_replicate|]. intros o Ho.
    rewrite lookup_replicate_2 by done. by rewrite decide_False by apply not_elem_of_nil.
  - split; [by rewrite length_insert|]. intros o Ho.
    destruct (decide (i = o)) as [->|Hne].
    + rewrite list_lookup_insert_eq by lia. by rewrite decide_True by left.
    + rewrite list_lookup_insert_ne by done. rewrite IH by done.
      destruct (decide (o ∈ ids)).
      * by rewrite decide_True by (by right).
      * rewrite decide_False; [done|]. rewrite elem_of_cons.
        intros [?|?]; [congruence|done].
Qed.

Lemma elem_of_Forall2_r {A B} (R : A → B → Prop) (l : list A) (k : list B) y :
  Forall2 R l k → y ∈ k → ∃ x, x ∈ l ∧ R x y.
Proof.
  induction 1 as [|x y' l k HR _ IH]; intros Hy; [by apply elem_of_nil in Hy|].
  apply elem_of_cons in Hy as [->|Hy].
  - exists x. split; [left|done].
  - destruct (IH Hy) as (x' & ? & ?). exists x'. split; [by right|done].
Qed.

Lemma elem_of_Forall2_l {A B} (R : A → B → Prop) (l : list A) (k : list B) x :
  Forall2 R l k → x ∈ l → ∃ y, y ∈ k ∧ R x y.
Proof.
  induction 1 as [|x' y l k HR _ IH]; intros Hx; [by apply elem_of_nil in Hx|].
  apply elem_of_cons in Hx as [->|Hx].
  - exists y. split; [left|done].
  - destruct (IH Hx) as (y' & ? & ?). exists y'. split; [by right|done].
Qed.

(** C9: whatever sample [np.random.choice] draws (20 distinct indices below
    [n_events = 40]), [face_ids] and [house_ids] are disjoint, cover
    [0 .. n_events - 1] and hold 20 indices each.  When the generated onsets
    fit in the run ([onsets < n_trs]), both event series are built, every
    onset belongs to exactly one condition, and
    [face_events + house_events] is 1 at every onset position; when some
    onset does not fit, numpy raises [IndexError] and no series is built. *)
Theorem event_ids_partition (geometric choice : list nat) :
  length geometric = n_events →
  length choice = n_events `div` 2 →
  NoDup choice →
  Forall (λ i, i < n_events) choice →
  (∀ i, i ∈ face_ids choice → i ∉ house_ids choice) ∧
  (∀ i, i < n_events → i ∈ face_ids choice ∨ i ∈ house_ids choice) ∧
  NoDup (face_ids choice) ∧ NoDup (house_ids choice) ∧
  length (face_ids choice) = 20 ∧ length (house_ids choice) = 20 ∧
  (Forall (λ o, o < Design.n_trs) (onsets geometric) →
   ∃ fe he,
     face_events geometric choice = inr fe ∧
     house_events geometric choice = inr he ∧
     length fe = Design.n_trs ∧ length he = Design.n_trs ∧
     ∀ k o, onsets geometric !! k = Some o →
       add_arrays fe he !! o = Some 1%float ∧
       ((k ∈ face_ids choice ∧ fe !! o = Some 1%float ∧ he !! o = Some 0%float) ∨
        (k ∈ house_ids choice ∧ fe !! o = Some 0%float ∧ he !! o = Some 1%float))) ∧
  (¬ Forall (λ o, o < Design.n_trs) (onsets geometric) →
   face_events geometric choice = inl IndexError ∨
   house_events geometric choice = inl IndexError).
Proof.
  intros Hgeo Hlen Hnd Hlt.
  assert (∀ i, i ∈ face_ids choice → i ∉ house_ids choice) as Hdisj.
  { intros i Hi. rewrite elem_of_house_ids. tauto. }
  assert (∀ i, i < n_events → i ∈ face_ids choice ∨ i ∈ house_ids choice) as Hcover.
  { intros i Hi. rewrite elem_of_house_ids.
    destruct (decide (i ∈ face_ids choice)); tauto. }
  assert (face_ids choice ≡ₚ choice) as Hperm by apply merge_sort_Permutation.
  (* both index arrays are in bounds of [onsets] *)
  assert (Forall (λ i, i < length (onsets geometric)) (face_ids choice)) as Hfb.
  { rewrite length_onsets, Hgeo, Hperm. done. }
  assert (Forall (λ i, i < length (onsets geometric)) (house_ids choice)) as Hhb.
  { rewrite length_onsets, Hgeo. apply Forall_forall. intros i Hi.
    by apply elem_of_house_ids in Hi as [? _]. }
  destruct (take_indices_ok _ _ Hfb) as (fo & Hfo & Hfo2).
  destruct (take_indices_ok _ _ Hhb) as (ho & Hho & Hho2).
  (* an onset is selected by an index array exactly when its index is in it *)
  assert (∀ k o ids r, onsets geometric !! k = Some o →
            Forall2 (λ i o, onsets geometric !! i = Some o) ids r →
            (o ∈ r ↔ k ∈ ids)) as Hmem.
  { intros k o ids r Hk H2. split.
    - intros Hor. destruct (elem_of_Forall2_r _ _ _ _ H2 Hor) as (i & Hi & Hio).
      by rewrite (onsets_inj _ _ _ _ Hk Hio).
    - intros Hki. destruct (elem_of_Forall2_l _ _ _ _ H2 Hki) as (o' & Ho' & Hko').
      rewrite Hk in Hko'. by injection Hko' as ->. }
  unfold face_events, house_events, face_onsets, house_onsets.
  rewrite Hfo, Hho. simpl.
  split_and!; try done.
  - by rewrite Hperm.
  - apply NoDup_filter, NoDup_seq.
  - rewrite Hperm, Hlen. reflexivity.
  - rewrite length_house_ids, Hlen by done. reflexivity.
  - intros Hfit.
    assert (∀ l r, Forall2 (λ i o, onsets geometric !! i = Some o) l r →
                   Forall (λ o, o < Design.n_trs) r) as Hin.
    { intros l r H2. apply Forall_forall. intros o Ho.
      destruct (elem_of_Forall2_r _ _ _ _ H2 Ho) as (i & _ & Hi).
      rewrite Forall_forall in Hfit. apply Hfit.
      apply list_elem_of_lookup. by exists i. }
    destruct (put_ones_ok Design.n_trs fo (Hin _ _ Hfo2)) as (fe & Hfe & Hfel & Hfe1).
    destruct (put_ones_ok Design.n_trs ho (Hin _ _ Hho2)) as (he & Hhe & Hhel & Hhe1).
    exists fe, he. split_and!; try done.
    intros k o Hk.
    assert (o < Design.n_trs) as Ho.
    { rewrite Forall_forall in Hfit. apply Hfit, list_elem_of_lookup. by exists k. }
    assert (k < n_events) as Hkn.
    { rewrite <-Hgeo, <-length_onsets. by eapply lookup_lt_Some. }
    unfold add_arrays. rewrite lookup_zip_with, (Hfe1 o Ho), (Hhe1 o Ho). simpl.
    destruct (Hcover k Hkn) as [Hf|Hh].
    + rewrite (decide_True (P := o ∈ fo)) by (by apply (Hmem k o _ _ Hk Hfo2)).
      rewrite (decide_False (P := o ∈ ho))
        by (rewrite (Hmem k o _ _ Hk Hho2); by apply Hdisj).
      split; [reflexivity|]. left. done.
    + rewrite (decide_True (P := o ∈ ho)) by (by apply (Hmem k o _ _ Hk Hho2)).
      rewrite (decide_False (P := o ∈ fo)).
      * split; [reflexivity|]. right. done.
      * rewrite (Hmem k o _ _ Hk Hfo2). intros Hf. by apply (Hdisj k).
  - intros Hfit. apply not_Forall_Exists in Hfit; [|apply _].
    apply Exists_exists in Hfit as (o & Ho & Hbig).
    apply list_elem_of_lookup in Ho as [k Hk].
    assert (k < n_events) as Hkn.
    { rewrite <-Hgeo, <-length_onsets. by eapply lookup_lt_Some. }
    unfold put_ones.
    destruct (Hcover k Hkn) as [Hf|Hh]; [left|right];
      (rewrite decide_False; [done|]); intros Hall;
      rewrite Forall_forall in Hall; apply Hbig, Hall.
    + by apply (Hmem k o _ _ Hk Hfo2).
    + by apply (Hmem k o _ _ Hk Hho2).
Qed.

Lemma event_ids_partition_witness :
  length (face_ids sample_choice) = 20 ∧ length (house_ids sample_choice) = 20 ∧
  ∃ fe he,
    face_events sample_geometric sample_choice = inr fe ∧
    house_events sample_geometric sample_choice = inr he ∧
    length fe = Design.n_trs ∧ length he = Design.n_trs ∧
    ∀ k o, onsets sample_geometric !! k = Some o →
      add_arrays fe he !! o = Some 1%float ∧
      ((k ∈ face_ids sample_choice ∧ fe !! o = Some 1%float ∧ he !! o = Some 0%float) ∨
       (k ∈ house_ids sample_choice ∧ fe !! o = Some 0%float ∧ he !! o = Some 1%float)).
Proof.
  destruct (event_ids_partition sample_geometric sample_choice)
    as (_ & _ & _ & _ & Hf & Hh & Hfit & _).
  - reflexivity.
  - reflexivity.
  - compute_done.
  - compute_done.
  - split_and!; [exact Hf|exact Hh|]. apply Hfit. compute_done.
Defined.

(** Onsets that run past the end of the series make the assignment raise. *)
Example face_events_out_of_range :
  onsets (replicate 40 3) !! 39 = Some 200 ∧
  face_events (replicate 40 3) sample_choice = inl IndexError ∧
  house_events (replicate 40 3) sample_choice = inl IndexError.
Proof. split_and!; vm_compute; reflexivity. Qed.

Example sample_run :
  onsets sample_geometric
    = [3; 6; 9; 12; 17; 21; 24; 27; 31; 35; 38; 41; 44; 47; 52; 55; 58; 61; 66; 71;
       76; 79; 84; 87; 90; 94; 97; 100; 103; 106; 109; 113; 120; 124; 128; 132;
       139; 142; 145; 148] ∧
  face_ids sample_choice
    = [0; 1; 2; 7; 12; 13; 14; 17; 18; 19; 21; 23; 24; 25; 29; 30; 31; 35; 36; 37] ∧
  house_ids sample_choice
    = [3; 4; 5; 6; 8; 9; 10; 11; 15; 16; 20; 22; 26; 27; 28; 32; 33; 34; 38; 39] ∧
  face_onsets sample_geometric sample_choice
    = inr [3; 6; 9; 27; 44; 47; 52; 61; 66; 71; 79; 87; 90; 94; 106; 109; 113;
           132; 139; 142].
Proof. split_and!; vm_compute; reflexivity. Qed.

Lemma lookup_cumsum_from acc l k :
  k < length l → cumsum_from acc l !! k = Some (acc + sum_list (take (S k) l)).
Proof.
  revert acc k. induction l as [|x l IH]; intros acc k Hk; simpl in Hk; [lia|].
  destruct k as [|k].
  - simpl. f_equal. lia.
  - change (cumsum_from acc (x :: l) !! S k) with (cumsum_from (acc + x) l !! k).
    rewrite IH by lia.
    change (take (S (S k)) (x :: l)) with (x :: take (S k) l).
    change (sum_list (x :: take (S k) l)) with (x + sum_list (take (S k) l)).
    f_equal. lia.
Qed.

Lemma sum_list_fmap_add c l :
  sum_list ((λ g, c + g) <$> l) = c * length l + sum_list l.
Proof.
  induction l as [|x l IH]; [simpl; lia|].
  rewrite fmap_cons.
  change (sum_list ((c + x) :: ((λ g, c + g) <$> l)))
    with (c + x + sum_list ((λ g, c + g) <$> l)).
  rewrite IH. simpl. lia.
Qed.

Lemma sum_list_ge c l : Forall (λ x, c ≤ x) l → c * length l ≤ sum_list l.
Proof. induction 1 as [|x l Hx _ IH]; simpl; lia. Qed.

Lemma lookup_onsets geometric k o :
  onsets geometric !! k = Some o →
  k < length geometric ∧ o = Design.tr * S k + sum_list (take (S k) geometric).
Proof.
  intros Hk.
  assert (k < length geometric) as Hlt.
  { rewrite <-length_onsets. by eapply lookup_lt_Some. }
  split; [done|]. unfold onsets, cumsum in Hk.
  rewrite lookup_cumsum_from in Hk by (by rewrite length_fmap).
  injection Hk as <-. rewrite <-fmap_take.
  change (λ g : nat, S (S g)) with (λ g : nat, Design.tr + g).
  rewrite sum_list_fmap_add.
  rewrite length_take_le by lia. lia.
Qed.

Lemma onsets_gap c geometric j k oj ok :
  Forall (λ x, c ≤ x) geometric → j < k →
  onsets geometric !! j = Some oj → onsets geometric !! k = Some ok →
  oj + (Design.tr + c) * (k - j) ≤ ok.
Proof.
  intros Hc Hjk Hj Hk.
  apply lookup_onsets in Hj as [Hjl ->]. apply lookup_onsets in Hk as [Hkl ->].
  replace (S k) with (S j + (k - j)) by lia.
  rewrite <-(take_take_drop geometric (S j) (k - j)).
  rewrite (sum_list_with_app id).
  assert (c * (k - j) ≤ sum_list (take (k - j) (drop (S j) geometric))) as Hsum.
  { etrans; [|apply (sum_list_ge c)].
    - rewrite length_take_le; [done|]. rewrite length_drop. lia.
    - apply Forall_take, Forall_drop, Hc. }
  unfold Design.tr in *. lia.
Qed.

(** X7: the k-th onset is [tr * (k + 1)] plus the sum of the first [k + 1]
    geometric draws; later onsets are later by at least [tr] per event, and
    by at least [tr + 1] per event when every draw is at least 1 (the
    support of the geometric distribution), so no two events share a TR. *)
Theorem onsets_spacing (geometric : list nat) :
  length (onsets geometric) = length geometric ∧
  (∀ k o, onsets geometric !! k = Some o →
     o = Design.tr * S k + sum_list (take (S k) geometric)) ∧
  (∀ j k oj ok, j < k →
     onsets geometric !! j = Some oj → onsets geometric !! k = Some ok →
     oj + Design.tr * (k - j) ≤ ok) ∧
  (Forall (λ x, 1 ≤ x) geometric →
   ∀ j k oj ok, j < k →
     onsets geometric !! j = Some oj → onsets geometric !! k = Some ok →
     oj + (Design.tr + 1) * (k - j) ≤ ok).
Proof.
  split_and!.
  - apply length_onsets.
  - intros k o Hk. by apply lookup_onsets in Hk as [_ ->].
  - intros j k oj ok Hjk Hj Hk.
    assert (Forall (λ x, 0 ≤ x) geometric) as H0
      by (apply Forall_forall; intros; lia).
    pose proof (onsets_gap 0 geometric j k oj ok H0 Hjk Hj Hk) as Hgap.
    replace (Design.tr + 0) with Design.tr in Hgap by lia. done.
  - intros H1 j k oj ok Hjk Hj Hk. by apply (onsets_gap 1 geometric j k).
Qed.

Lemma onsets_increasing geometric j k oj ok :
  j < k → onsets geometric !! j = Some oj → onsets geometric !! k = Some ok → oj < ok.
Proof.
  intros Hjk Hj Hk.
  assert (Forall (λ x, 0 ≤ x) geometric) as H0 by (apply Forall_forall; intros; lia).
  pose proof (onsets_gap 0 geometric j k oj ok H0 Hjk Hj Hk) as Hgap.
  unfold Design.tr in Hgap. lia.
Qed.

Lemma StronglySorted_le_lt (l : list nat) :
  StronglySorted le l → NoDup l → StronglySorted lt l.
Proof.
  induction 1 as [|x l Hl IH Hx]; intros Hnd; [constructor|].
  apply NoDup_cons in Hnd as [Hx' Hnd]. constructor; [by apply IH|].
  rewrite Forall_forall in Hx |- *. intros y Hy.
  assert (x ≠ y) by (intros ->; done). specialize (Hx y Hy). lia.
Qed.

Lemma StronglySorted_filter_lt (P : nat → Prop) `{!∀ x, Decision (P x)} (l : list nat) :
  StronglySorted lt l → StronglySorted lt (filter P l).
Proof.
  induction 1 as [|x l Hl IH Hx]; [constructor|].
  rewrite filter_cons. destruct (decide (P x)); [|done].
  constructor; [done|]. rewrite Forall_forall in Hx |- *.
  intros y Hy. apply list_elem_of_filter in Hy as [_ Hy]. by apply Hx.
Qed.

Lemma StronglySorted_seq a n : StronglySorted lt (seq a n).
Proof.
  revert a. induction n as [|n IH]; intros a; simpl; constructor; [apply IH|].
  apply Forall_forall. intros y Hy. apply elem_of_seq in Hy. lia.
Qed.

Lemma face_ids_sorted choice : NoDup choice → StronglySorted lt (face_ids choice).
Proof.
  intros Hnd. apply StronglySorted_le_lt.
  - unfold face_ids. apply StronglySorted_merge_sort; apply _.
  - unfold face_ids. by rewrite merge_sort_Permutation.
Qed.

Lemma house_ids_sorted choice : StronglySorted lt (house_ids choice).
Proof. unfold house_ids. apply StronglySorted_filter_lt, StronglySorted_seq. Qed.

Lemma ids_Permutation choice :
  NoDup choice → Forall (λ i, i < n_events) choice →
  face_ids choice ++ house_ids choice ≡ₚ seq 0 n_events.
Proof.
  intros Hnd Hlt. apply NoDup_Permutation.
  - apply NoDup_app. split_and!.
    + unfold face_ids. by rewrite merge_sort_Permutation.
    + intros i Hi. rewrite elem_of_house_ids. tauto.
    + unfold house_ids. apply NoDup_filter, NoDup_seq.
  - apply NoDup_seq.
  - intros i. rewrite elem_of_app, elem_of_house_ids, elem_of_seq, elem_of_face_ids.
    rewrite Forall_forall in Hlt. split.
    + intros [Hi|[Hi _]]; [specialize (Hlt i Hi)|]; lia.
    + intros [_ Hi]. destruct (decide (i ∈ choice)); [by left|right]. split; [lia|done].
Qed.

Lemma selected_fmap (x ids r : list nat) :
  Forall2 (λ i o, x !! i = Some o) ids r → r = (λ i, default 0 (x !! i)) <$> ids.
Proof.
  induction 1 as [|i o ids r Hi _ IH]; [done|].
  rewrite fmap_cons, Hi, <-IH. done.
Qed.

Lemma fmap_lookup_seq (x : list nat) :
  (λ i, default 0 (x !! i)) <$> seq 0 (length x) = x.
Proof.
  apply list_eq. intros i. rewrite list_lookup_fmap.
  destruct (decide (i < length x)) as [Hi|Hi].
  - rewrite lookup_seq_lt by done. simpl.
    destruct (lookup_lt_is_Some_2 x i Hi) as [o Ho]. by rewrite Ho.
  - rewrite lookup_seq_ge by lia. simpl. symmetry. apply lookup_ge_None. lia.
Qed.

Lemma selected_mem geometric k o ids r :
  onsets geometric !! k = Some o →
  Forall2 (λ i o, onsets geometric !! i = Some o) ids r →
  (o ∈ r ↔ k ∈ ids).
Proof.
  intros Hk H2. split.
  - intros Hor. destruct (elem_of_Forall2_r _ _ _ _ H2 Hor) as (i & Hi & Hio).
    by rewrite (onsets_inj _ _ _ _ Hk Hio).
  - intros Hki. destruct (elem_of_Forall2_l _ _ _ _ H2 Hki) as (o' & Ho' & Hko').
    rewrite Hk in Hko'. by injection Hko' as ->.
Qed.

Lemma selected_sorted geometric ids r :
  StronglySorted lt ids →
  Forall2 (λ i o, onsets geometric !! i = Some o) ids r →
  StronglySorted lt r.
Proof.
  intros Hs H2. induction H2 as [|i o ids r Hi H2 IH]; [constructor|].
  apply StronglySorted_cons in Hs as [Hlt Hs]. constructor; [by apply IH|].
  apply Forall_forall. intros o' Ho'.
  destruct (elem_of_Forall2_r _ _ _ _ H2 Ho') as (i' & Hi' & Hio').
  rewrite Forall_forall in Hlt.
  by apply (onsets_increasing geometric i i' o o' (Hlt i' Hi')).
Qed.

(** The two selections [onsets[face_ids]] and [onsets[house_ids]] never
    raise when the draws are what the generator can return. *)
Lemma onsets_selected (geometric choice : list nat) :
  length geometric = n_events →
  NoDup choice → Forall (λ i, i < n_events) choice →
  ∃ fo ho,
    face_onsets geometric choice = inr fo ∧
    house_onsets geometric choice = inr ho ∧
    Forall2 (λ i o, onsets geometric !! i = Some o) (face_ids choice) fo ∧
    Forall2 (λ i o, onsets geometric !! i = Some o) (house_ids choice) ho.
Proof.
  intros Hgeo Hnd Hlt.
  assert (Forall (λ i, i < length (onsets geometric)) (face_ids choice)) as Hfb.
  { rewrite length_onsets, Hgeo. unfold face_ids. by rewrite merge_sort_Permutation. }
  assert (Forall (λ i, i < length (onsets geometric)) (house_ids choice)) as Hhb.
  { rewrite length_onsets, Hgeo. apply Forall_forall. intros i Hi.
    by apply elem_of_house_ids in Hi as [? _]. }
  destruct (take_indices_ok _ _ Hfb) as (fo & Hfo & Hfo2).
  destruct (take_indices_ok _ _ Hhb) as (ho & Hho & Hho2).
  by exists fo, ho.
Qed.

(** X8: for every sample the generator can draw, both onset selections
    succeed; each holds 20 onsets in strictly increasing order, no onset is
    in both, and together they are exactly the generated onsets. *)
Theorem face_house_onsets (geometric choice : list nat) :
  length geometric = n_events →
  length choice = n_events `div` 2 →
  NoDup choice →
  Forall (λ i, i < n_events) choice →
  ∃ fo ho,
    face_onsets geometric choice = inr fo ∧
    house_onsets geometric choice = inr ho ∧
    length fo = 20 ∧ length ho = 20 ∧
    StronglySorted lt fo ∧ StronglySorted lt ho ∧
    (∀ o, o ∈ fo → o ∉ ho) ∧
    fo ++ ho ≡ₚ onsets geometric.
Proof.
  intros Hgeo Hlen Hnd Hlt.
  destruct (onsets_selected geometric choice Hgeo Hnd Hlt) as (fo & ho & Hfo & Hho & Hf2 & Hh2).
  exists fo, ho. split_and!; try done.
  - rewrite <-(Forall2_length _ _ _ Hf2). unfold face_ids.
    rewrite merge_sort_Permutation, Hlen. reflexivity.
  - rewrite <-(Forall2_length _ _ _ Hh2), length_house_ids, Hlen by done. reflexivity.
  - eapply selected_sorted; [|exact Hf2]. by apply face_ids_sorted.
  - eapply selected_sorted; [|exact Hh2]. apply house_ids_sorted.
  - intros o Hof Hoh.
    destruct (elem_of_Forall2_r _ _ _ _ Hf2 Hof) as (i & Hi & Hio).
    apply (selected_mem geometric i o _ _ Hio Hh2) in Hoh.
    apply elem_of_house_ids in Hoh as [_ Hoh]. done.
  - rewrite (selected_fmap _ _ _ Hf2), (selected_fmap _ _ _ Hh2), <-fmap_app.
    rewrite (ids_Permutation choice Hnd Hlt).
    rewrite <-Hgeo, <-length_onsets. by rewrite fmap_lookup_seq.
Qed.

Lemma face_house_onsets_witness :
  ∃ fo ho,
    face_onsets sample_geometric sample_choice = inr fo ∧
    house_onsets sample_geometric sample_choice = inr ho ∧
    length fo = 20 ∧ length ho = 20 ∧
    StronglySorted lt fo ∧ StronglySorted lt ho ∧
    (∀ o, o ∈ fo → o ∉ ho) ∧
    fo ++ ho ≡ₚ onsets sample_geometric.
Proof.
  apply (face_house_onsets sample_geometric sample_choice).
  - reflexivity.
  - reflexivity.
  - compute_done.
  - compute_done.
Defined.

Lemma StronglySorted_lt_NoDup (l : list nat) : StronglySorted lt l → NoDup l.
Proof.
  induction 1 as [|x l Hl IH Hx]; [constructor|].
  apply NoDup_cons. split; [|done].
  intros Hin. rewrite Forall_forall in Hx. specialize (Hx x Hin). lia.
Qed.

Lemma NoDup_onsets geometric : NoDup (onsets geometric).
Proof. apply NoDup_alt. intros j k o. apply onsets_inj. Qed.

Lemma n_ones_indicator (n : nat) (ids : list nat) (z : list float) :
  length z = n →
  (∀ j, j < n → z !! j = Some (if decide (j ∈ ids) then 1%float else 0%float)) →
  NoDup ids → Forall (λ i, i < n) ids →
  Design.n_ones z = length ids.
Proof.
  intros Hlen Hz Hnd Hlt.
  assert (z = (λ j, if decide (j ∈ ids) then 1%float else 0%float) <$> seq 0 n) as ->.
  { apply list_eq. intros j. rewrite list_lookup_fmap.
    destruct (decide (j < n)) as [Hj|Hj].
    - rewrite lookup_seq_lt by done. by apply Hz.
    - rewrite lookup_seq_ge by lia. apply lookup_ge_None. lia. }
  rewrite Design.n_ones_fmap. apply Permutation_length, NoDup_Permutation;
    [apply NoDup_filter, NoDup_seq|done|].
  intros j. rewrite list_elem_of_filter, elem_of_seq. split.
  - intros [Hj _]. destruct (decide (j ∈ ids)); [done|]. vm_compute in Hj. discriminate.
  - intros Hj. rewrite decide_True by done. split; [reflexivity|].
    rewrite Forall_forall in Hlt. specialize (Hlt j Hj). lia.
Qed.

Lemma put_ones_inr n ids z : put_ones n ids = inr z → Forall (λ i, i < n) ids.
Proof. unfold put_ones. by case_decide. Qed.

Lemma onsets_selected_Permutation geometric choice fo ho :
  length geometric = n_events →
  NoDup choice → Forall (λ i, i < n_events) choice →
  Forall2 (λ i o, onsets geometric !! i = Some o) (face_ids choice) fo →
  Forall2 (λ i o, onsets geometric !! i = Some o) (house_ids choice) ho →
  fo ++ ho ≡ₚ onsets geometric.
Proof.
  intros Hgeo Hnd Hlt Hf2 Hh2.
  rewrite (selected_fmap _ _ _ Hf2), (selected_fmap _ _ _ Hh2), <-fmap_app.
  rewrite (ids_Permutation choice Hnd Hlt).
  rewrite <-Hgeo, <-length_onsets. by rewrite fmap_lookup_seq.
Qed.

(** Both event series are built exactly when every onset is below
    [n_trs]. *)
Lemma events_ok_iff (geometric choice : list nat) :
  length geometric = n_events →
  NoDup choice → Forall (λ i, i < n_events) choice →
  (∃ fe he, face_events geometric choice = inr fe ∧
            house_events geometric choice = inr he) ↔
  Forall (λ o, o < Design.n_trs) (onsets geometric).
Proof.
  intros Hgeo Hnd Hlt.
  destruct (onsets_selected geometric choice Hgeo Hnd Hlt) as (fo & ho & Hfo & Hho & Hf2 & Hh2).
  pose proof (onsets_selected_Permutation _ _ _ _ Hgeo Hnd Hlt Hf2 Hh2) as Hperm.
  unfold face_events, house_events. rewrite Hfo, Hho. cbn.
  rewrite <-Hperm, Forall_app. split.
  - intros (fe & he & Hfe & Hhe). split; by eapply put_ones_inr.
  - intros [Hf Hh].
    destruct (put_ones_ok _ _ Hf) as (fe & Hfe & _).
    destruct (put_ones_ok _ _ Hh) as (he & Hhe & _). by exists fe, he.
Qed.

(** X9: when the onsets fit in the run, [face_events] is 1 exactly at the
    face onsets and [house_events] exactly at the house onsets, no TR has
    both events, each series has 20 ones, and their sum is 1 exactly at the
    40 generated onsets and 0 at every other TR. *)
Theorem event_series (geometric choice : list nat) :
  length geometric = n_events →
  length choice = n_events `div` 2 →
  NoDup choice →
  Forall (λ i, i < n_events) choice →
  Forall (λ o, o < Design.n_trs) (onsets geometric) →
  ∃ fo ho fe he,
    face_onsets geometric choice = inr fo ∧
    house_onsets geometric choice = inr ho ∧
    face_events geometric choice = inr fe ∧
    house_events geometric choice = inr he ∧
    (∀ j, j < Design.n_trs →
       fe !! j = Some (if decide (j ∈ fo) then 1%float else 0%float)) ∧
    (∀ j, j < Design.n_trs →
       he !! j = Some (if decide (j ∈ ho) then 1%float else 0%float)) ∧
    (∀ j, j < Design.n_trs →
       add_arrays fe he !! j
         = Some (if decide (j ∈ onsets geometric) then 1%float else 0%float)) ∧
    (∀ j, ¬ (fe !! j = Some 1%float ∧ he !! j = Some 1%float)) ∧
    Design.n_ones fe = 20 ∧ Design.n_ones he = 20 ∧ Design.n_ones (add_arrays fe he) = 40.
Proof.
  intros Hgeo Hlen Hnd Hlt Hfit.
  destruct (onsets_selected geometric choice Hgeo Hnd Hlt) as (fo & ho & Hfo & Hho & Hf2 & Hh2).
  pose proof (onsets_selected_Permutation _ _ _ _ Hgeo Hnd Hlt Hf2 Hh2) as Hperm.
  assert (Forall (λ o, o < Design.n_trs) fo ∧ Forall (λ o, o < Design.n_trs) ho)
    as [Hf Hh] by (by rewrite <-Forall_app, Hperm).
  destruct (put_ones_ok _ _ Hf) as (fe & Hfe & Hfel & Hfe1).
  destruct (put_ones_ok _ _ Hh) as (he & Hhe & Hhel & Hhe1).
  assert (∀ o, o ∈ fo → o ∉ ho) as Hdisj.
  { intros o Hof Hoh.
    destruct (elem_of_Forall2_r _ _ _ _ Hf2 Hof) as (i & Hi & Hio).
    apply (selected_mem geometric i o _ _ Hio Hh2) in Hoh.
    apply elem_of_house_ids in Hoh as [_ Hoh]. done. }
  assert (∀ j, j < Design.n_trs →
    add_arrays fe he !! j
      = Some (if decide (j ∈ onsets geometric) then 1%float else 0%float)) as Hsum.
  { intros j Hj. unfold add_arrays.
    rewrite lookup_zip_with, (Hfe1 j Hj), (Hhe1 j Hj). cbn.
    destruct (decide (j ∈ fo)) as [Hjf|Hjf].
    - rewrite (decide_False (P := j ∈ ho)) by (by apply Hdisj).
      rewrite decide_True; [reflexivity|]. rewrite <-Hperm, elem_of_app. by left.
    - destruct (decide (j ∈ ho)) as [Hjh|Hjh].
      + rewrite decide_True; [reflexivity|]. rewrite <-Hperm, elem_of_app. by right.
      + rewrite decide_False; [reflexivity|]. rewrite <-Hperm, elem_of_app. tauto. }
  exists fo, ho, fe, he. unfold face_events, house_events. rewrite Hfo, Hho. cbn.
  split_and!; try done.
  - intros j [Hj1 Hj2].
    assert (j < Design.n_trs) as Hj by (rewrite <-Hfel; by eapply lookup_lt_Some).
    rewrite (Hfe1 j Hj) in Hj1. rewrite (Hhe1 j Hj) in Hj2.
    destruct (decide (j ∈ fo)) as [Hjf|];
      [|apply (inj Some) in Hj1; by apply Censor.float_0_neq_1].
    rewrite decide_False in Hj2 by (by apply Hdisj).
    apply (inj Some) in Hj2. by apply Censor.float_0_neq_1.
  - rewrite (n_ones_indicator Design.n_trs fo fe Hfel Hfe1); [| |done].
    + rewrite <-(Forall2_length _ _ _ Hf2). unfold face_ids.
      rewrite merge_sort_Permutation, Hlen. reflexivity.
    + apply StronglySorted_lt_NoDup. eapply selected_sorted; [|exact Hf2].
      by apply face_ids_sorted.
  - rewrite (n_ones_indicator Design.n_trs ho he Hhel Hhe1); [| |done].
    + rewrite <-(Forall2_length _ _ _ Hh2), length_house_ids, Hlen by done. reflexivity.
    + apply StronglySorted_lt_NoDup. eapply selected_sorted; [|exact Hh2].
      apply house_ids_sorted.
  - rewrite (n_ones_indicator Design.n_trs (onsets geometric) (add_arrays fe he)).
    + by rewrite length_onsets, Hgeo.
    + unfold add_arrays. rewrite length_zip_with, Hfel, Hhel. lia.
    + done.
    + apply NoDup_onsets.
    + done.
Qed.

Lemma event_series_witness :
  ∃ fo ho fe he,
    face_onsets sample_geometric sample_choice = inr fo ∧
    house_onsets sample_geometric sample_choice = inr ho ∧
    face_events sample_geometric sample_choice = inr fe ∧
    house_events sample_geometric sample_choice = inr he ∧
    (∀ j, j < Design.n_trs →
       fe !! j = Some (if decide (j ∈ fo) then 1%float else 0%float)) ∧
    (∀ j, j < Design.n_trs →
       he !! j = Some (if decide (j ∈ ho) then 1%float else 0%float)) ∧
    (∀ j, j < Design.n_trs →
       add_arrays fe he !! j
         = Some (if decide (j ∈ onsets sample_geometric) then 1%float else 0%float)) ∧
    (∀ j, ¬ (fe !! j = Some 1%float ∧ he !! j = Some 1%float)) ∧
    Design.n_ones fe = 20 ∧ Design.n_ones he = 20 ∧ Design.n_ones (add_arrays fe he) = 40.
Proof.
  apply (event_series sample_geometric sample_choice).
  - reflexivity.
  - reflexivity.
  - compute_done.
  - compute_done.
  - compute_done.
Defined.

(** X10: for every sample the generator can draw, the two event series
    are built (no [IndexError]) exactly when [tr * n_events] plus the sum
    of the geometric draws is below [n_trs]. *)
Theorem events_fit_iff (geometric choice : list nat) :
  length geometric = n_events →
  NoDup choice →
  Forall (λ i, i < n_events) choice →
  (∃ fe he, face_events geometric choice = inr fe ∧
            house_events geometric choice = inr he) ↔
  Design.tr * n_events + sum_list geometric < Design.n_trs.
Proof.
  intros Hgeo Hnd Hlt. rewrite (events_ok_iff geometric choice Hgeo Hnd Hlt).
  assert (onsets geometric !! (n_events - 1)
          = Some (Design.tr * n_events + sum_list geometric)) as Hlast.
  { destruct (lookup_lt_is_Some_2 (onsets geometric) (n_events - 1)) as [o Ho].
    - rewrite length_onsets, Hgeo. unfold n_events. lia.
    - rewrite Ho. f_equal. apply lookup_onsets in Ho as [_ ->].
      replace (S (n_events - 1)) with n_events by (unfold n_events; lia).
      by rewrite <-Hgeo, firstn_all. }
  split.
  - intros Hfit. rewrite Forall_forall in Hfit. apply Hfit.
    apply list_elem_of_lookup. eauto.
  - intros Hfit. apply Forall_lookup. intros k o Hk.
    destruct (decide (k = n_events - 1)) as [->|Hne]; [rewrite Hlast in Hk; by injection Hk as <-|].
    assert (k < n_events - 1) as Hlt'.
    { apply lookup_lt_Some in Hk. rewrite length_onsets, Hgeo in Hk. lia. }
    pose proof (onsets_increasing _ _ _ _ _ Hlt' Hk Hlast). lia.
Qed.

Lemma events_fit_iff_witness :
  (∃ fe he, face_events sample_geometric sample_choice = inr fe ∧
            house_events sample_geometric sample_choice = inr he) ↔
  Design.tr * n_events + sum_list sample_geometric < Design.n_trs.
Proof.
  apply (events_fit_iff sample_geometric sample_choice).
  - reflexivity.
  - compute_done.
  - compute_done.
Defined.

End EventDesign.

(** ** Impulse series (design notebook, cell 5)

<<
    onsets = [10, 30, 50]

    impulses = np.zeros(60)
    impulses[onsets] = 1
>>

    [onsets] is a list of Python integers: numpy accepts an index [i] of an
    axis of [n] items when [-n <= i < n], counts a negative one from the
    end, and raises [IndexError] for any other before it assigns anything. *)

Module Impulse.

Definition onsets : list Z := [10; 30; 50]%Z.

(** The position an integer index denotes on an axis of [n] items. *)
Definition check_index (n : nat) (i : Z) : exn + nat :=
  if decide (- Z.of_nat n ≤ i < Z.of_nat n)%Z
  then inr (Z.to_nat (if decide (i < 0)%Z then i + Z.of_nat n else i))
  else inl IndexError.

Fixpoint check_indices (n : nat) (ids : list Z) : exn + list nat :=
  match ids with
  | [] => inr []
  | i :: ids => p ← check_index n i; ps ← check_indices n ids; inr (p :: ps)
  end.

(** [z = np.zeros(n); z[ids] = 1] *)
Definition set_ones (n : nat) (ids : list Z) : exn + list float :=
  ps ← check_indices n ids;
  inr (foldl (λ z p, <[p:=1%float]> z) (replicate n 0%float) ps).

Definition impulses : exn + list float := set_ones 60 onsets.

Lemma check_indices_ok n ids :
  Forall (λ i, - Z.of_nat n ≤ i < Z.of_nat n)%Z ids →
  check_indices n ids
    = inr ((λ i, Z.to_nat (if decide (i < 0)%Z then i + Z.of_nat n else i)) <$> ids).
Proof.
  induction 1 as [|i ids Hi _ IH]; [done|].
  cbn [check_indices]. unfold check_index at 1.
  rewrite decide_True by done. cbn. rewrite IH. done.
Qed.

Lemma check_indices_fail n ids :
  ¬ Forall (λ i, - Z.of_nat n ≤ i < Z.of_nat n)%Z ids →
  check_indices n ids = inl IndexError.
Proof.
  induction ids as [|i ids IH]; intros Hn; [by destruct Hn|].
  cbn [check_indices]. unfold check_index at 1.
  destruct (decide (- Z.of_nat n ≤ i < Z.of_nat n)%Z) as [Hi|Hi]; [|done].
  cbn. rewrite IH; [done|]. intros Hall. apply Hn. by constructor.
Qed.

Lemma length_foldl_insert (ps : list nat) (z : list float) :
  length (foldl (λ z p, <[p:=1%float]> z) z ps) = length z.
Proof.
  revert z. induction ps as [|p ps IH]; intros z; simpl; [done|].
  by rewrite IH, length_insert.
Qed.

Lemma lookup_foldl_insert (ps : list nat) (z : list float) (j : nat) :
  foldl (λ z p, <[p:=1%float]> z) z ps !! j
    = (λ old, if decide (j ∈ ps) then 1%float else old) <$> z !! j.
Proof.
  revert z. induction ps as [|p ps IH]; intros z; simpl.
  - by destruct (z !! j).
  - rewrite IH. destruct (decide (p = j)) as [->|Hne].
    + destruct (z !! j) as [old|] eqn:Hz.
      * rewrite list_lookup_insert_eq by (by eapply lookup_lt_Some). simpl.
        rewrite (decide_True (P := j ∈ j :: ps)) by left.
        by destruct (decide (j ∈ ps)).
      * rewrite list_insert_ge by (by apply lookup_ge_None). by rewrite Hz.
    + rewrite list_lookup_insert_ne by done.
      destruct (z !! j) as [old|]; simpl; [|done]. f_equal.
      destruct (decide (j ∈ ps)).
      * by rewrite decide_True by (by right).
      * rewrite decide_False; [done|]. rewrite elem_of_cons.
        intros [?|?]; [congruence|done].
Qed.

(** X6: the impulse series is built exactly when every onset lies in
    [-n, n); it then has [n] entries, each 0 or 1, with a 1 at position [j]
    exactly when [j] or [j - n] is one of the onsets.  When some onset lies
    outside [-n, n) the assignment raises [IndexError]. *)
Theorem set_ones_spec (n : nat) (ids : list Z) :
  (Forall (λ i, - Z.of_nat n ≤ i < Z.of_nat n)%Z ids →
   ∃ z, set_ones n ids = inr z ∧ length z = n ∧
     Forall (λ x, x = 0%float ∨ x = 1%float) z ∧
     ∀ j : nat, j < n →
       z !! j = Some (if decide (Exists (λ i, i = Z.of_nat j ∨ i = Z.of_nat j - Z.of_nat n)%Z ids)
                      then 1%float else 0%float)) ∧
  (¬ Forall (λ i, - Z.of_nat n ≤ i < Z.of_nat n)%Z ids →
   set_ones n ids = inl IndexError).
Proof.
  split.
  - intros Hin. unfold set_ones. rewrite (check_indices_ok n ids Hin). cbn.
    eexists. split; [done|].
    assert (∀ j : nat, j < n →
      foldl (λ z p, <[p:=1%float]> z) (replicate n 0%float)
        ((λ i, Z.to_nat (if decide (i < 0)%Z then i + Z.of_nat n else i)) <$> ids) !! j
      = Some (if decide (Exists (λ i, i = Z.of_nat j ∨ i = Z.of_nat j - Z.of_nat n)%Z ids)
              then 1%float else 0%float)) as Hlookup.
    { intros j Hj. rewrite lookup_foldl_insert, lookup_replicate_2 by done. simpl.
      f_equal. rewrite Forall_forall in Hin.
      destruct (decide (Exists _ ids)) as [Hex|Hex].
      - rewrite decide_True; [done|].
        apply Exists_exists in Hex as (i & Hi & Hij).
        apply list_elem_of_fmap. exists i. split; [|done].
        specialize (Hin i Hi). case_decide; lia.
      - rewrite decide_False; [done|]. intros Hj'. apply Hex.
        apply list_elem_of_fmap in Hj' as (i & Hij & Hi).
        apply Exists_exists. exists i. split; [done|].
        specialize (Hin i Hi). case_decide; lia. }
    assert (length (foldl (λ z p, <[p:=1%float]> z) (replicate n 0%float)
        ((λ i, Z.to_nat (if decide (i < 0)%Z then i + Z.of_nat n else i)) <$> ids)) = n)
      as Hlen by (by rewrite length_foldl_insert, length_replicate).
    split_and!; [done| |done].
    apply Forall_lookup. intros j x Hx.
    assert (j < n) as Hj by (rewrite <-Hlen; by eapply lookup_lt_Some).
    rewrite (Hlookup j Hj) in Hx. injection Hx as <-. case_decide; auto.
  - intros Hout. unfold set_ones. by rewrite (check_indices_fail n ids Hout).
Qed.

(** On indices that are natural numbers the integer-indexed assignment of
    this cell and the assignment of the event-related cells coincide. *)
Lemma set_ones_put_ones (n : nat) (ids : list nat) :
  set_ones n (Z.of_nat <$> ids) = EventDesign.put_ones n ids.
Proof.
  destruct (decide (Forall (λ i, i < n) ids)) as [Hin|Hout].
  - assert (Forall (λ i, - Z.of_nat n ≤ i < Z.of_nat n)%Z (Z.of_nat <$> ids)) as HinZ.
    { apply Forall_fmap. eapply Forall_impl; [exact Hin|].
      intros i Hi. simpl in *. lia. }
    destruct (EventDesign.put_ones_ok n ids Hin) as (z & -> & Hlen & Hz).
    unfold set_ones. rewrite (check_indices_ok _ _ HinZ). cbn. f_equal.
    apply list_eq. intros j. rewrite lookup_foldl_insert.
    destruct (decide (j < n)) as [Hj|Hj].
    + rewrite lookup_replicate_2, (Hz j Hj) by done. simpl. f_equal.
      assert (j ∈ (λ i, Z.to_nat (if decide (i < 0)%Z then i + Z.of_nat n else i))
                    <$> (Z.of_nat <$> ids) ↔ j ∈ ids) as Hiff.
      { rewrite <-list_fmap_compose, list_elem_of_fmap. split.
        - intros (i & -> & Hi). simpl. rewrite decide_False by lia.
          by rewrite Nat2Z.id.
        - intros Hj'. exists j. split; [|done]. simpl.
          rewrite decide_False by lia. by rewrite Nat2Z.id. }
      destruct (decide (j ∈ ids)), (decide (j ∈ _ <$> (Z.of_nat <$> ids))); tauto.
    + rewrite (proj2 (lookup_ge_None z j)) by lia.
      rewrite (proj2 (lookup_ge_None (replicate n 0%float) j)); [done|].
      rewrite length_replicate. lia.
  - unfold EventDesign.put_ones. rewrite decide_False by done.
    unfold set_ones. rewrite check_indices_fail; [done|].
    intros HinZ. apply Hout. apply Forall_fmap in HinZ.
    eapply Forall_impl; [exact HinZ|]. intros i Hi. simpl in *. lia.
Qed.

Example impulses_cell :
  impulses
    = inr (replicate 10 0 ++ [1] ++ replicate 19 0 ++ [1] ++ replicate 19 0 ++ [1]
           ++ replicate 9 0)%float ∧
  set_ones 5 [-1; 0]%Z = inr [1; 0; 0; 0; 1]%float ∧
  set_ones 5 [1; 5]%Z = inl IndexError ∧
  set_ones 5 [-6]%Z = inl IndexError.
Proof. split_and!; vm_compute; reflexivity. Qed.

End Impulse.
